(** * Hazard-aware routing engine of the Dynamic Evacuation System

    A shallow embedding of [software/path_planning/path_planning.c]
    (graph store, risk update, A* planner, direction translator) and of the
    replanning policy of [software/main.c], with the properties of the
    routing specification stated over it.

    Number model.  C [int] values are integers of [Z]; no operation of the
    modelled code overflows on the inputs considered.  C [float] and
    [double] values are modelled by the rational number they denote, in
    canonical form ([Qc]): comparisons are exact, and NaN and infinities
    are not represented.  The conversion of an [int] to a [float] rounds
    to binary32, and so does the subtraction of converted coordinates in
    [get_direction_from_path]; the other arithmetic is carried out without
    rounding. *)

From Stdlib Require Import String Ascii ZArith QArith Qcanon Qcabs Qround Lia.
From stdpp Require Import base option list numbers.

Local Open Scope Z_scope.

(** ** Number model *)

(** A decimal literal of the source, as the value it denotes. *)
Definition flt (q : Q) : Qc := Q2Qc q.

(** Strict comparison of two [float] values, as a boolean. *)
Definition Qcltb (a b : Qc) : bool := bool_decide (a < b)%Qc.

(** [FLT_MAX] of <float.h>: the largest finite binary32 value,
    (2 - 2^-23) * 2^127. *)
Definition FLT_MAX : Qc := Q2Qc (inject_Z (2 ^ 128 - 2 ^ 104)).

(** Conversion of a [float] to an [int]: truncation toward zero. *)
Definition float_to_int (q : Qc) : Z := Z.quot (Qnum q) (Zpos (Qden q)).

(** The rational number an integer denotes. *)
Definition float_of_Z (z : Z) : Qc := Q2Qc (inject_Z z).

(** The binary32 value nearest to the integer [z], ties to the even
    significand: integers of magnitude below 2^24 are kept, and beyond
    them the 24-bit significand keeps the multiples of
    [2 ^ (log2 |z| - 23)].  The result is an integer again.  (Binary32
    overflows from 2^128 - 2^103 on, far above any [int] and any
    difference of two converted [int] values.) *)
Definition binary32_of_Z (z : Z) : Z :=
  let a := Z.abs z in
  if a <? 2 ^ 24 then z
  else
    let q := 2 ^ (Z.log2 a - 23) in
    let m := a / q in
    let r := a mod q in
    let m' := if 2 * r <? q then m
              else if q <? 2 * r then m + 1
              else if Z.even m then m else m + 1 in
    Z.sgn z * (m' * q).

(** Conversion of an [int] to a [float]: rounding to binary32. *)
Definition int_to_float (z : Z) : Qc := float_of_Z (binary32_of_Z z).

(** The binary32 difference [a - b] of two [float] values that hold
    integers, as converted [int] values do: their exact difference is an
    integer, and the result is the binary32 value nearest to it. *)
Definition float_sub (a b : Qc) : Qc :=
  float_of_Z (binary32_of_Z (Qfloor (a - b)%Qc)).

(** ** data_fusion.h *)

Record EnvironmentalData_t := {
  tvoc_ppb : Z;            (* uint16_t *)
  eco2_ppm : Z;            (* uint16_t *)
  mq2_voltage : Qc;
  mq2_concentration : Qc
}.

(** ** path_planning.h *)

Definition MAP_WIDTH : Z := 20.
Definition MAP_HEIGHT : Z := 20.
Definition MAX_PATH_LENGTH : Z := MAP_WIDTH * MAP_HEIGHT.
Definition MAX_NODES : Z := 100.
Definition MAX_EDGES : Z := 200.

(** [MapNode_t], restricted to the fields the planner writes and the
    direction translator reads.  Its coordinates are [int]s. *)
Module MapNode.
Record t := { node_id : Z; x : Z; y : Z; area_id : Z }.
End MapNode.
Definition MapNode_t : Type := MapNode.t.

Record path_t := {
  path_nodes : list MapNode_t;   (* nodes[0 .. num_nodes-1] *)
  total_distance : Qc;
  total_risk : Qc;
  timestamp : Z
}.

(** [num_nodes] of a path is the number of its defined entries. *)
Definition path_num_nodes (p : path_t) : Z := Z.of_nat (length (path_nodes p)).

Record graph_node_t := { node_id : Z; area_id : Z; x : Qc; y : Qc }.

Record graph_edge_t := {
  edge_id : Z;
  start_node : Z;
  end_node : Z;
  distance : Qc;
  risk_factor : Qc
}.

(** The graph: the prefixes [nodes[0..num_nodes-1]] and
    [edges[0..num_edges-1]] of the two fixed arrays, in array order. *)
Record graph_t := { nodes : list graph_node_t; edges : list graph_edge_t }.

Definition num_nodes (g : graph_t) : Z := Z.of_nat (length (nodes g)).
Definition num_edges (g : graph_t) : Z := Z.of_nat (length (edges g)).

(** ** path_planning.c: the graph store *)

(** [path_planning_init] and [path_planning_cleanup]: the [memset] leaves
    an empty graph. *)
Definition path_planning_init : graph_t := {| nodes := []; edges := [] |}.
Definition path_planning_cleanup (g : graph_t) : graph_t :=
  {| nodes := []; edges := [] |}.

Definition has_node (g : graph_t) (id : Z) : bool :=
  existsb (fun n => node_id n =? id) (nodes g).

Definition has_edge (g : graph_t) (id : Z) : bool :=
  existsb (fun e => edge_id e =? id) (edges g).

(** [add_node]: the return code and the graph afterwards. *)
Definition add_node (id area : Z) (px py : Qc) (g : graph_t) : Z * graph_t :=
  if has_node g id then (-1, g)
  else if MAX_NODES <=? num_nodes g then (-1, g)
  else (0, {| nodes := nodes g ++
                [{| node_id := id; area_id := area; x := px; y := py |}];
              edges := edges g |}).

(** [add_edge]: the return code and the graph afterwards. *)
Definition add_edge (id s e : Z) (d : Qc) (g : graph_t) : Z * graph_t :=
  if has_edge g id then (-1, g)
  else if MAX_EDGES <=? num_edges g then (-1, g)
  else
    let start_found := has_node g s in
    let end_found := has_node g e in
    if negb start_found || negb end_found then (-1, g)
    else (0, {| nodes := nodes g;
                edges := edges g ++
                  [{| edge_id := id; start_node := s; end_node := e;
                      distance := d; risk_factor := 0%Qc |}] |}).

(** The area of the last node carrying a node id, [-1] when there is none
    (the inner loop of [update_edge_risks]). *)
Definition area_of_node (g : graph_t) (id : Z) : Z :=
  fold_left (fun acc n => if node_id n =? id then area_id n else acc)
            (nodes g) (-1).

(** The risk one reading assigns to an edge. *)
Definition edge_risk_of (g : graph_t) (env : EnvironmentalData_t)
    (e : graph_edge_t) : Qc :=
  let start_area_id := area_of_node g (start_node e) in
  let end_area_id := area_of_node g (end_node e) in
  let start_risk :=
    (int_to_float (tvoc_ppb env + eco2_ppm env) / flt 2000.0)%Qc in
  let end_risk := start_risk in
  let r := if Qcltb end_risk start_risk then start_risk else end_risk in
  let r := if Qcltb (flt 1.0) r then flt 1.0 else r in
  let r := if Qcltb r (flt 0.0) then flt 0.0 else r in
  r.

Definition set_risk (e : graph_edge_t) (r : Qc) : graph_edge_t :=
  {| edge_id := edge_id e; start_node := start_node e;
     end_node := end_node e; distance := distance e; risk_factor := r |}.

(** [update_edge_risks]; [None] is the NULL reading. *)
Definition update_edge_risks (env_data : option EnvironmentalData_t)
    (g : graph_t) : Z * graph_t :=
  match env_data with
  | None => (-1, g)
  | Some env =>
      (0, {| nodes := nodes g;
             edges := map (fun e => set_risk e (edge_risk_of g env e))
                          (edges g) |})
  end.

(** ** path_planning.c: loading a map *)

Section Loader.

(** The two [sscanf] calls of [load_map_data], which belong to the C
    library: [scan_node line] is [Some] of the four converted fields when
    [sscanf(line, "%d %d %f %f", ...)] returns 4, and [scan_edge] likewise
    for ["%d %d %d %f"]. *)
Variable scan_node : string -> option (Z * Z * Qc * Qc).
Variable scan_edge : string -> option (Z * Z * Z * Qc).

(** [strncmp(line, tag, strlen(tag)) == 0]. *)
Definition has_tag (tag line : string) : bool := String.prefix tag line.

(** The first [while] loop: the return code, the graph, and the lines not
    yet read. *)
Fixpoint read_nodes (lines : list string) (g : graph_t)
    : Z * graph_t * list string :=
  match lines with
  | [] => (0, g, [])
  | line :: rest =>
      if has_tag "EDGES" line then (0, g, rest)
      else
        match scan_node line with
        | Some (id, area, px, py) =>
            let '(rc, g') := add_node id area px py g in
            if negb (rc =? 0) then (-1, g', rest) else read_nodes rest g'
        | None => read_nodes rest g
        end
  end.

(** The second [while] loop. *)
Fixpoint read_edges (lines : list string) (g : graph_t) : Z * graph_t :=
  match lines with
  | [] => (0, g)
  | line :: rest =>
      match scan_edge line with
      | Some (id, s, e, d) =>
          let '(rc, g') := add_edge id s e d g in
          if negb (rc =? 0) then (-1, g') else read_edges rest g'
      | None => read_edges rest g
      end
  end.

(** [load_map_data].  The file is the list of the lines [fgets] yields;
    [None] is a file that cannot be opened. *)
Definition load_map_data (file : option (list string)) (g : graph_t)
    : Z * graph_t :=
  match file with
  | None => (-1, g)
  | Some [] => (-1, g)
  | Some (header :: rest) =>
      if negb (has_tag "NODES" header) then (-1, g)
      else
        let '(rc, g1, rest1) := read_nodes rest g in
        if negb (rc =? 0) then (-1, g1) else read_edges rest1 g1
  end.

End Loader.

(** ** path_planning.c: the A* planner *)

(** [graph.nodes[i]]; the array is zero-filled beyond [num_nodes]. *)
Definition node_at (g : graph_t) (i : nat) : graph_node_t :=
  default {| node_id := 0; area_id := 0; x := 0%Qc; y := 0%Qc |}
          (nodes g !! i).

(** [find_node_index_by_id]: the first index carrying the id. *)
Definition find_node_index_by_id (g : graph_t) (id : Z) : option nat :=
  fst <$> list_find (fun n => node_id n = id) (nodes g).

(** The loop that resolves the two area ids: every matching node
    overwrites the id found so far; [-1] stands for "none". *)
Definition resolve_area_ids (g : graph_t) (start_area_id end_area_id : Z)
    : Z * Z :=
  fold_left
    (fun '(start_node_id, end_node_id) n =>
       (if area_id n =? start_area_id then node_id n else start_node_id,
        if area_id n =? end_area_id then node_id n else end_node_id))
    (nodes g) (-1, -1).

(** The local arrays of [find_safe_path], indexed by node index. *)
Record astar_state := {
  g_score : list Qc;
  f_score : list Qc;
  prev_node_idx : list (option nat);   (* [None] is -1 *)
  open_set : list bool;
  closed_set : list bool
}.

Definition score_at (l : list Qc) (i : nat) : Qc := default FLT_MAX (l !! i).
Definition flag_at (l : list bool) (i : nat) : bool := default false (l !! i).
Definition prev_at (l : list (option nat)) (i : nat) : option nat :=
  default None (l !! i).

(** The edge traversal cost of the search. *)
Definition risk_weight (e : graph_edge_t) : Qc :=
  (flt 1.0 + flt 10.0 * risk_factor e)%Qc.

Definition edge_cost (e : graph_edge_t) : Qc :=
  (distance e * risk_weight e)%Qc.

(** One step of the scan for the open node of lowest [f_score]. *)
Definition lowest_f_step (st : astar_state) (acc : Qc * option nat)
    (i : nat) : Qc * option nat :=
  let '(min_f_score, current_idx) := acc in
  if flag_at (open_set st) i && Qcltb (score_at (f_score st) i) min_f_score
  then (score_at (f_score st) i, Some i)
  else acc.

Definition lowest_f (g : graph_t) (st : astar_state) : option nat :=
  snd (fold_left (lowest_f_step st) (seq 0 (length (nodes g)))
                 (FLT_MAX, None)).

(** [open_set[i] = false; closed_set[i] = true]. *)
Definition close_node (i : nat) (st : astar_state) : astar_state :=
  {| g_score := g_score st; f_score := f_score st;
     prev_node_idx := prev_node_idx st;
     open_set := <[i := false]> (open_set st);
     closed_set := <[i := true]> (closed_set st) |}.

Section Planner.

(** [sqrt] of <math.h>. *)
Variable sqrtf : Qc -> Qc.

Definition heuristic (g : graph_t) (current_node_idx target_node_idx : nat)
    : Qc :=
  let dx := (x (node_at g current_node_idx) - x (node_at g target_node_idx))%Qc in
  let dy := (y (node_at g current_node_idx) - y (node_at g target_node_idx))%Qc in
  sqrtf (dx * dx + dy * dy)%Qc.

Definition init_state (g : graph_t) (u_idx v_idx : nat) : astar_state :=
  let n := length (nodes g) in
  {| g_score := <[u_idx := 0%Qc]> (replicate n FLT_MAX);
     f_score := <[u_idx := heuristic g u_idx v_idx]> (replicate n FLT_MAX);
     prev_node_idx := replicate n None;
     open_set := <[u_idx := true]> (replicate n false);
     closed_set := replicate n false |}.

(** The body of the neighbour loop for one edge [e = graph.edges[j]]. *)
Definition relax (g : graph_t) (v_idx current_idx : nat)
    (st : astar_state) (e : graph_edge_t) : astar_state :=
  if start_node e =? node_id (node_at g current_idx) then
    match find_node_index_by_id g (end_node e) with
    | Some neighbor_idx =>
        if negb (flag_at (closed_set st) neighbor_idx) then
          let tentative_g_score :=
            (score_at (g_score st) current_idx + edge_cost e)%Qc in
          if negb (flag_at (open_set st) neighbor_idx)
             || Qcltb tentative_g_score (score_at (g_score st) neighbor_idx)
          then
            {| g_score := <[neighbor_idx := tentative_g_score]> (g_score st);
               f_score := <[neighbor_idx :=
                   (tentative_g_score + heuristic g neighbor_idx v_idx)%Qc]>
                   (f_score st);
               prev_node_idx :=
                 <[neighbor_idx := Some current_idx]> (prev_node_idx st);
               open_set := <[neighbor_idx := true]> (open_set st);
               closed_set := closed_set st |}
          else st
        else st
    | None => st
    end
  else st.

Definition explore (g : graph_t) (v_idx current_idx : nat)
    (st : astar_state) : astar_state :=
  fold_left (relax g v_idx current_idx) (edges g) st.

(** The outcome of the [while (true)] loop. *)
Inductive search_result :=
| Found (st : astar_state)     (* the goal was selected: [break] *)
| NoPath                       (* the open set is empty: [return -1] *)
| OutOfFuel.                   (* the iteration bound of the model ran out *)

Fixpoint astar_loop (g : graph_t) (v_idx : nat) (fuel : nat)
    (st : astar_state) : search_result :=
  match fuel with
  | O => OutOfFuel
  | S fuel' =>
      match lowest_f g st with
      | None => NoPath
      | Some current_idx =>
          if (current_idx =? v_idx)%nat then Found st
          else astar_loop g v_idx fuel'
                 (explore g v_idx current_idx (close_node current_idx st))
      end
  end.

(** The reconstruction loop: follow the parent links from [cur];
    [room] is [MAX_PATH_LENGTH - temp_path_len], and [None] is the
    "path exceeds maximum length" exit.  The result is
    [temp_path_nodes_idx], goal first. *)
Fixpoint trace_back (prev : list (option nat)) (cur : option nat)
    (room : nat) : option (list nat) :=
  match cur with
  | None => Some []
  | Some c =>
      match room with
      | O => None
      | S room' => cons c <$> trace_back prev (prev_at prev c) room'
      end
  end.

(** The node copied into the path; its coordinates are stored in [int]
    fields. *)
Definition to_map_node (n : graph_node_t) : MapNode_t :=
  {| MapNode.node_id := node_id n;
     MapNode.x := float_to_int (x n);
     MapNode.y := float_to_int (y n);
     MapNode.area_id := area_id n |}.

(** The inner edge loop of the path-filling loop: the first edge in array
    order from [a] to [b]. *)
Definition find_edge (g : graph_t) (a b : Z) : option graph_edge_t :=
  find (fun e => (start_node e =? a) && (end_node e =? b)) (edges g).

(** The running totals [(total_distance, total_risk)] over the segments
    that follow the node with id [prev_node_id]. *)
Fixpoint accumulate (g : graph_t) (prev_node_id : Z) (rest : list MapNode_t)
    (acc : Qc * Qc) : Qc * Qc :=
  match rest with
  | [] => acc
  | n :: rest' =>
      let acc' :=
        match find_edge g prev_node_id (MapNode.node_id n) with
        | Some e => ((acc.1 + distance e)%Qc, (acc.2 + risk_factor e)%Qc)
        | None => acc
        end in
      accumulate g (MapNode.node_id n) rest' acc'
  end.

Definition path_totals (g : graph_t) (ns : list MapNode_t) : Qc * Qc :=
  match ns with
  | [] => (flt 0.0, flt 0.0)
  | n :: rest => accumulate g (MapNode.node_id n) rest (flt 0.0, flt 0.0)
  end.

(** The path filled from the node indices in start-to-goal order. *)
Definition build_path (now : Z) (g : graph_t) (idxs : list nat) : path_t :=
  let ns := map (fun i => to_map_node (node_at g i)) idxs in
  {| path_nodes := ns;
     total_distance := (path_totals g ns).1;
     total_risk := (path_totals g ns).2;
     timestamp := now |}.

(** [find_safe_path]: [None] is the return code -1 (the path argument is
    then left untouched), [Some p] is return code 0 with [*path = p].
    [now] is the value of [time(NULL)]. *)
Definition find_safe_path (now : Z) (g : graph_t)
    (start_area_id end_area_id : Z) : option path_t :=
  let '(start_node_id, end_node_id) :=
    resolve_area_ids g start_area_id end_area_id in
  if (start_node_id =? -1) || (end_node_id =? -1) then None
  else
    match find_node_index_by_id g start_node_id,
          find_node_index_by_id g end_node_id with
    | Some u_idx, Some v_idx =>
        match astar_loop g v_idx (S (length (nodes g)))
                         (init_state g u_idx v_idx) with
        | Found st =>
            match trace_back (prev_node_idx st) (Some v_idx)
                             (Z.to_nat MAX_PATH_LENGTH) with
            | Some temp_path_nodes_idx =>
                Some (build_path now g (rev temp_path_nodes_idx))
            | None => None
            end
        | NoPath => None
        | OutOfFuel => None
        end
    | _, _ => None
    end.

End Planner.

(** ** path_planning.c: the direction translator *)

Definition EAST : Z := 0.
Definition NORTH : Z := 1.
Definition WEST : Z := 2.
Definition SOUTH : Z := 3.

(** [get_direction_from_path]; [None] is the NULL pointer. *)
Definition get_direction_from_path (path : option path_t) : Z :=
  match path with
  | None => -1
  | Some p =>
      if path_num_nodes p <? 2 then -1
      else
        match path_nodes p with
        | n0 :: n1 :: _ =>
            let x1 := int_to_float (MapNode.x n0) in
            let y1 := int_to_float (MapNode.y n0) in
            let x2 := int_to_float (MapNode.x n1) in
            let y2 := int_to_float (MapNode.y n1) in
            let dx := float_sub x2 x1 in
            let dy := float_sub y2 y1 in
            if Qcltb (Qcabs dy) (Qcabs dx) then
              if Qcltb 0 dx then EAST else WEST
            else
              if Qcltb 0 dy then SOUTH else NORTH
        | _ => -1
        end
  end.

(** ** main.c: the replanning policy *)

Module Mall.

Definition MAX_AREAS : Z := 100.
Definition MAX_CONNECTIONS : Z := 500.
Definition MAX_PATH_LENGTH : Z := 50.

Record Area := {
  id : Z;
  name : string;
  is_exit : Z;
  hazard_level : Qc
}.

Record Connection := {
  from : Z;
  to : Z;
  distance : Qc;
  blocked : Z
}.

(** [area_ids] is the whole fixed array of [MAX_PATH_LENGTH] entries;
    [length] says how many of them are in use. *)
Record EvacuationPath := {
  area_ids : list Z;
  length : Z;
  total_distance : Qc
}.

(** The map: [areas[0..area_count-1]] and
    [connections[0..connection_count-1]], in array order. *)
Record ShoppingMallMap := {
  areas : list Area;
  connections : list Connection
}.

(** [path.area_ids[i]]. *)
Definition area_id_at (path : EvacuationPath) (i : nat) : Z :=
  default 0 (area_ids path !! i).

(** [find_nearest_exit]: [current_area] is not used. *)
Definition find_nearest_exit (map : ShoppingMallMap) (current_area : Z) : Z :=
  match find (fun a => negb (is_exit a =? 0)) (areas map) with
  | Some a => id a
  | None => -1
  end.

(** The connection test of [find_evacuation_path], in either direction. *)
Definition joins (a b : Z) (c : Connection) : bool :=
  ((from c =? a) && (to c =? b)) || ((from c =? b) && (to c =? a)).

(** [find_evacuation_path]: the zero-initialised path with its first two
    entries set, and the distance of the first connection joining them. *)
Definition find_evacuation_path (map : ShoppingMallMap) (start end_ : Z)
    : EvacuationPath :=
  let ids := <[1%nat := end_]> (<[0%nat := start]>
               (replicate (Z.to_nat MAX_PATH_LENGTH) 0)) in
  {| area_ids := ids;
     length := 2;
     total_distance :=
       match find (joins start end_) (connections map) with
       | Some c => (flt 0.0 + distance c)%Qc
       | None => flt 0.0
       end |}.

(** The test of the inner loop of [update_path_dynamically]: some area of
    the map carries the id and has a hazard level above 0.8. *)
Definition hazardous (map : ShoppingMallMap) (area : Z) : bool :=
  existsb (fun a => (id a =? area) && Qcltb (flt 0.8) (hazard_level a))
          (areas map).

(** The entries [area_ids[0 .. length-1]] the outer loop visits. *)
Definition active_ids (path : EvacuationPath) : list Z :=
  List.map (area_id_at path) (seq 0 (Z.to_nat (length path))).

(** [update_path_dynamically]. *)
Definition update_path_dynamically (map : ShoppingMallMap)
    (path : EvacuationPath) (current_area : Z) : EvacuationPath :=
  if existsb (hazardous map) (active_ids path) then
    let nearest_exit := find_nearest_exit map current_area in
    find_evacuation_path map current_area nearest_exit
  else path.

End Mall.

(** ** Concrete instances of the library functions

    Used to run the model on concrete inputs. *)

(** A scanner for lines whose fields are plain decimal numbers separated
    by blanks; on such lines it converts what [sscanf] converts (no
    exponents, hexadecimal forms, infinities or NaN). *)
Module Scan.

Definition is_space (c : ascii) : bool :=
  let n := nat_of_ascii c in
  ((n =? 32) || (n =? 9) || (n =? 10) || (n =? 13))%nat.

Fixpoint skip_spaces (l : list ascii) : list ascii :=
  match l with
  | c :: r => if is_space c then skip_spaces r else l
  | [] => []
  end.

Definition digit_of (c : ascii) : option Z :=
  let n := nat_of_ascii c in
  if ((48 <=? n) && (n <=? 57))%nat then Some (Z.of_nat n - 48) else None.

(** The longest run of digits: its value after [acc], its length, the
    rest of the input. *)
Fixpoint digits (l : list ascii) (acc : Z) (count : nat)
    : Z * nat * list ascii :=
  match l with
  | c :: r =>
      match digit_of c with
      | Some d => digits r (10 * acc + d) (S count)
      | None => (acc, count, l)
      end
  | [] => (acc, count, [])
  end.

Definition sign (l : list ascii) : bool * list ascii :=
  match l with
  | c :: r =>
      if (nat_of_ascii c =? 45)%nat then (true, r)
      else if (nat_of_ascii c =? 43)%nat then (false, r)
      else (false, l)
  | [] => (false, [])
  end.

(** [%d] *)
Definition int (l : list ascii) : option (Z * list ascii) :=
  let '(neg, l1) := sign (skip_spaces l) in
  let '(v, k, r) := digits l1 0 0 in
  if (k =? 0)%nat then None else Some (if neg then - v else v, r).

(** [%f] *)
Definition float (l : list ascii) : option (Qc * list ascii) :=
  let '(neg, l1) := sign (skip_spaces l) in
  let '(ip, k1, r1) := digits l1 0 0 in
  let '(v, k2, r2) :=
    match r1 with
    | c :: r =>
        if (nat_of_ascii c =? 46)%nat then digits r ip 0 else (ip, O, r1)
    | [] => (ip, O, [])
    end in
  if (k1 + k2 =? 0)%nat then None
  else
    let q := Q2Qc (Qmake v (Z.to_pos (10 ^ Z.of_nat k2))) in
    Some (if neg then (- q)%Qc else q, r2).

Definition node (line : string) : option (Z * Z * Qc * Qc) :=
  '(a, r) ← int (list_ascii_of_string line);
  '(b, r) ← int r;
  '(c, r) ← float r;
  '(d, r) ← float r;
  Some (a, b, c, d).

Definition edge (line : string) : option (Z * Z * Z * Qc) :=
  '(a, r) ← int (list_ascii_of_string line);
  '(b, r) ← int r;
  '(c, r) ← int r;
  '(d, r) ← float r;
  Some (a, b, c, d).

End Scan.

(** A square root on the rationals, exact on the squares of multiples of
    2^-24 and rounded down to a multiple of 2^-24 elsewhere. *)
Definition sqrt_down (q : Qc) : Qc :=
  Q2Qc (Qmake (Z.sqrt (Qnum q * 2 ^ 48 / Zpos (Qden q))) (2 ^ 24)).

(** ** The test map of path_planning.c *)

(** The four nodes and five edges the test [main] inserts. *)
Definition square_map : graph_t :=
  let g := path_planning_init in
  let g := (add_node 1 101 (flt 0) (flt 0) g).2 in
  let g := (add_node 2 102 (flt 10) (flt 0) g).2 in
  let g := (add_node 3 103 (flt 10) (flt 10) g).2 in
  let g := (add_node 4 104 (flt 0) (flt 10) g).2 in
  let g := (add_edge 1 1 2 (flt 10.0) g).2 in
  let g := (add_edge 2 2 3 (flt 10.0) g).2 in
  let g := (add_edge 3 3 4 (flt 10.0) g).2 in
  let g := (add_edge 4 4 1 (flt 10.0) g).2 in
  let g := (add_edge 5 1 3 (flt 14.14) g).2 in
  g.

(** The graph with the risk factor of the edge [id] set to [r]. *)
Definition with_edge_risk (id : Z) (r : Qc) (g : graph_t) : graph_t :=
  {| nodes := nodes g;
     edges := map (fun e => if edge_id e =? id then set_risk e r else e)
                  (edges g) |}.

Definition path_node_ids (p : path_t) : list Z :=
  map MapNode.node_id (path_nodes p).

(** ** Notions used to state the properties *)

(** Every edge's risk factor lies in [0,1]. *)
Definition risk_in_range (g : graph_t) : Prop :=
  Forall (fun e => (0 <= risk_factor e)%Qc /\ (risk_factor e <= 1)%Qc)
         (edges g).

(** The operations of the module that write the graph. *)
Inductive graph_op :=
| OpInit
| OpCleanup
| OpAddNode (id area : Z) (px py : Qc)
| OpAddEdge (id s e : Z) (d : Qc)
| OpUpdateEdgeRisks (env_data : option EnvironmentalData_t)
| OpLoadMapData (file : option (list string)).

Definition is_risk_update (op : graph_op) : bool :=
  match op with OpUpdateEdgeRisks _ => true | _ => false end.

Section Operations.

Variable scan_node : string -> option (Z * Z * Qc * Qc).
Variable scan_edge : string -> option (Z * Z * Z * Qc).

Definition apply_op (g : graph_t) (op : graph_op) : graph_t :=
  match op with
  | OpInit => path_planning_init
  | OpCleanup => path_planning_cleanup g
  | OpAddNode id area px py => (add_node id area px py g).2
  | OpAddEdge id s e d => (add_edge id s e d g).2
  | OpUpdateEdgeRisks env_data => (update_edge_risks env_data g).2
  | OpLoadMapData file => (load_map_data scan_node scan_edge file g).2
  end.

(** The graph after a sequence of operations on the initialised module. *)
Definition run_ops (ops : list graph_op) : graph_t :=
  fold_left apply_op ops path_planning_init.

End Operations.

Definition node_ids (g : graph_t) : list Z := map node_id (nodes g).
Definition edge_ids (g : graph_t) : list Z := map edge_id (edges g).

(** A graph filled to both capacities: nodes 0..99 and edges 0..199. *)
Definition crowded_map : graph_t :=
  {| nodes := map (fun i => {| node_id := Z.of_nat i; area_id := 0;
                               x := 0%Qc; y := 0%Qc |}) (seq 0 100);
     edges := map (fun j => {| edge_id := Z.of_nat j; start_node := 0;
                               end_node := 1; distance := 1%Qc;
                               risk_factor := 0%Qc |}) (seq 0 200) |}.

(** First and last node of the node array carrying an area id. *)
Definition first_node_with_area (g : graph_t) (area : Z)
    : option graph_node_t :=
  head (filter (fun n => area_id n = area) (nodes g)).

Definition last_node_with_area (g : graph_t) (area : Z)
    : option graph_node_t :=
  list.last (filter (fun n => area_id n = area) (nodes g)).

(** A map in which nodes 1 and 5 both lie in area 101. *)
Definition twin_map : graph_t :=
  let g := path_planning_init in
  let g := (add_node 1 101 (flt 0) (flt 0) g).2 in
  let g := (add_node 2 102 (flt 10) (flt 0) g).2 in
  let g := (add_node 5 101 (flt 0) (flt 10) g).2 in
  let g := (add_edge 1 1 2 (flt 10.0) g).2 in
  let g := (add_edge 2 5 2 (flt 10.0) g).2 in
  let g := (add_edge 3 2 1 (flt 10.0) g).2 in
  let g := (add_edge 4 2 5 (flt 10.0) g).2 in
  g.



(** A map file whose third line repeats the node id of the second. *)
Definition duplicate_node_file : list string :=
  ["NODES"; "1 101 0 0"; "1 102 5 5"; "EDGES"; "1 1 1 3.5"]%string.

(** A map file whose last line names an endpoint that is not a node. *)
Definition dangling_edge_file : list string :=
  ["NODES"; "1 101 0 0"; "2 102 10 0"; "EDGES"; "1 1 2 10.0"; "2 2 9 4.0"]%string.

(** A well-formed map file. *)
Definition small_map_file : list string :=
  ["NODES"; "1 101 0 0"; "2 102 10 0"; "EDGES"; "1 1 2 10.0"; "2 2 1 10.0"]%string.

(** A mall whose first listed exit (201) is farther from area 101 than
    its second (202), and whose area 102 is hazardous. *)
Definition two_exit_mall : Mall.ShoppingMallMap :=
  {| Mall.areas :=
       [ {| Mall.id := 101; Mall.name := "hall"; Mall.is_exit := 0;
            Mall.hazard_level := flt 0.1 |};
         {| Mall.id := 102; Mall.name := "shop"; Mall.is_exit := 0;
            Mall.hazard_level := flt 0.9 |};
         {| Mall.id := 201; Mall.name := "north exit"; Mall.is_exit := 1;
            Mall.hazard_level := flt 0.0 |};
         {| Mall.id := 202; Mall.name := "south exit"; Mall.is_exit := 1;
            Mall.hazard_level := flt 0.0 |} ];
     Mall.connections :=
       [ {| Mall.from := 101; Mall.to := 102; Mall.distance := flt 5.0;
            Mall.blocked := 0 |};
         {| Mall.from := 101; Mall.to := 201; Mall.distance := flt 50.0;
            Mall.blocked := 0 |};
         {| Mall.from := 101; Mall.to := 202; Mall.distance := flt 5.0;
            Mall.blocked := 0 |} ] |}.

(** The same mall with area 102 calm. *)
Definition calm_mall : Mall.ShoppingMallMap :=
  {| Mall.areas :=
       map (fun a => {| Mall.id := Mall.id a; Mall.name := Mall.name a;
                        Mall.is_exit := Mall.is_exit a;
                        Mall.hazard_level := flt 0.25 |})
           (Mall.areas two_exit_mall);
     Mall.connections := Mall.connections two_exit_mall |}.

(** An active path 101 -> 102 -> 201. *)
Definition path_via_shop : Mall.EvacuationPath :=
  {| Mall.area_ids := 101 :: 102 :: 201 :: replicate 47 0;
     Mall.length := 3;
     Mall.total_distance := flt 55.0 |}.

(** [e] is an exit of the map. *)
Definition is_exit_area (m : Mall.ShoppingMallMap) (e : Z) : Prop :=
  exists a, In a (Mall.areas m) /\ Mall.id a = e /\ Mall.is_exit a <> 0.

(** [e] is an exit of the map nearest to [current_area]: no other exit is
    reached by a planned path of smaller total distance. *)
Definition nearest_exit (m : Mall.ShoppingMallMap) (current_area e : Z)
    : Prop :=
  is_exit_area m e /\
  forall e', is_exit_area m e' ->
    (Mall.total_distance (Mall.find_evacuation_path m current_area e)
     <= Mall.total_distance (Mall.find_evacuation_path m current_area e'))%Qc.

(** A square-root table for the test map: exact on 0 and 100, and [s] on
    every other argument. *)
Definition sqrt_table (s : Qc) (q : Qc) : Qc :=
  if Qeq_bool q 0 then 0%Qc
  else if Qeq_bool q 100 then flt 10
  else s.

(** ** Invariants of the search *)


(** [i] is closed and its parent links lead, through closed nodes only,
    to the start index [u]. *)
Inductive rooted (u : nat) (prev : list (option nat)) (closed : list bool)
    : nat -> Prop :=
| rooted_start :
    flag_at closed u = true -> rooted u prev closed u
| rooted_child i c :
    flag_at closed i = true ->
    prev_at prev i = Some c ->
    rooted u prev closed c ->
    rooted u prev closed i.

(** The parent links form a tree rooted at the start index [u]. *)
Record tree_inv (g : graph_t) (u : nat) (st : astar_state) : Prop := {
  tree_len : length (prev_node_idx st) = length (nodes g);
  tree_root : prev_at (prev_node_idx st) u = None;
  tree_parent : forall i c,
    prev_at (prev_node_idx st) i = Some c ->
    rooted u (prev_node_idx st) (closed_set st) c;
  tree_open : forall i,
    flag_at (open_set st) i = true ->
    i = u \/ exists c, prev_at (prev_node_idx st) i = Some c;
  tree_first :
    flag_at (closed_set st) u = true \/
    ((forall i, flag_at (open_set st) i = true -> i = u) /\
     (forall i, prev_at (prev_node_idx st) i = None))
}.

(** The two flag arrays have one entry per node and no node is both open
    and closed. *)
Record sets_inv (g : graph_t) (st : astar_state) : Prop := {
  sets_open_len : length (open_set st) = length (nodes g);
  sets_closed_len : length (closed_set st) = length (nodes g);
  sets_disjoint : forall i,
    flag_at (open_set st) i = true -> flag_at (closed_set st) i = false
}.

(** The number of nodes not yet closed. *)
Definition unclosed (st : astar_state) : nat :=
  length (filter (fun b => b = false) (closed_set st)).


(** ** Further notions: the graph store *)

(** The invariant of the graph of the data model: node ids are unique,
    edge ids are unique, every edge joins two nodes of the graph, and both
    arrays are within their capacities. *)
Record well_formed (g : graph_t) : Prop := {
  wf_node_ids : NoDup (node_ids g);
  wf_edge_ids : NoDup (edge_ids g);
  wf_endpoints :
    Forall (fun e => In (start_node e) (node_ids g) /\
                     In (end_node e) (node_ids g)) (edges g);
  wf_node_capacity : num_nodes g <= MAX_NODES;
  wf_edge_capacity : num_edges g <= MAX_EDGES
}.

(** The risk factor as a function of the sum of the two gas values. *)
Definition clamped_risk (z : Z) : Qc :=
  if 2000 <? z then 1%Qc
  else if z <? 0 then 0%Qc
  else (int_to_float z / flt 2000.0)%Qc.

(** The lines of a map file after its header that the node loop reads
    as node lines, and those the edge loop reads. *)
Fixpoint node_section (lines : list string) : list string :=
  match lines with
  | [] => []
  | line :: rest =>
      if has_tag "EDGES" line then [] else line :: node_section rest
  end.

Fixpoint edge_section (lines : list string) : list string :=
  match lines with
  | [] => []
  | line :: rest =>
      if has_tag "EDGES" line then rest else edge_section rest
  end.

Definition node_of_fields (f : Z * Z * Qc * Qc) : graph_node_t :=
  let '(id, area, px, py) := f in
  {| node_id := id; area_id := area; x := px; y := py |}.

Definition edge_of_fields (f : Z * Z * Z * Qc) : graph_edge_t :=
  let '(id, s, e, d) := f in
  {| edge_id := id; start_node := s; end_node := e;
     distance := d; risk_factor := 0%Qc |}.

(** ** Further notions: the search *)

(** Closed nodes are ranked in the order in which they were closed: [k]
    nodes are closed, every closed node has a rank below [k], and the
    parent of a closed node has a smaller rank than the node. *)
Definition ranked (g : graph_t) (st : astar_state) (rank : nat -> nat)
    (k : nat) : Prop :=
  (k + unclosed st = length (nodes g))%nat /\
  forall i, flag_at (closed_set st) i = true ->
    (rank i < k)%nat /\
    forall c, prev_at (prev_node_idx st) i = Some c -> (rank c < rank i)%nat.

(** The node id an area id is resolved to, [-1] when no node carries it. *)
Definition resolved_node_id (g : graph_t) (area : Z) : Z :=
  from_option node_id (-1) (last_node_with_area g area).

(** ** data_fusion.c: the environmental path *)

(** Equality test of two [float] values, as a boolean. *)
Definition Qceqb (a b : Qc) : bool := Qeq_bool a b.

Definition MQ2_RL_VALUE : Qc := flt 10.0.
Definition MQ2_RO_CLEAN_AIR_FACTOR : Qc := flt 9.83.

(** [mq2_get_rs] *)
Definition mq2_get_rs (raw_adc : Z) : Qc :=
  let voltage := (int_to_float raw_adc * flt 2.048 / flt 32767.0)%Qc in
  if Qceqb voltage 0 then 0%Qc
  else (MQ2_RL_VALUE * (flt 2.048 - voltage) / voltage)%Qc.

Section Fusion.

(** [pow] of <math.h>. *)
Variable powf : Qc -> Qc -> Qc.

(** [mq2_get_concentration] *)
Definition mq2_get_concentration (rs : Qc) : Qc :=
  let rs_ro := (rs / MQ2_RO_CLEAN_AIR_FACTOR)%Qc in
  if Qceqb rs_ro 0 then 0%Qc
  else (flt 100.0 * powf rs_ro (- flt 2.5))%Qc.

(** [fuse_environmental_data]: the return code and the reading stored
    through [env_data]. *)
Definition fuse_environmental_data (sgp30_tvoc sgp30_eco2 mq2_raw_adc : Z)
    : Z * EnvironmentalData_t :=
  let rs := mq2_get_rs mq2_raw_adc in
  (0, {| tvoc_ppb := sgp30_tvoc;
         eco2_ppm := sgp30_eco2;
         mq2_voltage :=
           (int_to_float mq2_raw_adc * flt 2.048 / flt 32767.0)%Qc;
         mq2_concentration := mq2_get_concentration rs |}).

End Fusion.

(** ** ui_module.c: the guidance line *)

(** The [switch] of [ui_update]. *)
Definition arrow_of_direction (direction : Z) : string :=
  if direction =? 0 then ">"
  else if direction =? 1 then "^"
  else if direction =? 2 then "<"
  else if direction =? 3 then "v"
  else "?".

(** [ui_update]: the return code and the line written to the cleared
    display.  The reading and the motion data it is passed are not used. *)
Definition ui_update (path : option path_t) : Z * string :=
  match path with
  | Some p =>
      if 0 <? path_num_nodes p
      then (0, arrow_of_direction (get_direction_from_path path))
      else (0, "NO PATH"%string)
  | None => (0, "NO PATH"%string)
  end.

(** ** main.c: loading the mall map *)

(** The reading loop shared by the two loaders: lines are read while the
    array holds fewer than [capacity] records, and every line that scans
    is stored at the end. *)
Fixpoint read_records {A : Type} (capacity : Z) (scan : string -> option A)
    (lines : list string) (records : list A) : list A :=
  match lines with
  | [] => records
  | line :: rest =>
      if Z.of_nat (length records) <? capacity then
        match scan line with
        | Some r => read_records capacity scan rest (records ++ [r])
        | None => read_records capacity scan rest records
        end
      else records
  end.

Section MallFiles.

(** The two [sscanf] calls: [Some] of the record when all four fields
    are converted. *)
Variable scan_area : string -> option Mall.Area.
Variable scan_connection : string -> option Mall.Connection.

(** [load_areas_from_file]; [None] is a file that cannot be opened, and
    [Some lines] the successive buffers [fgets] returns. *)
Definition load_areas_from_file (map : Mall.ShoppingMallMap)
    (file : option (list string)) : Z * Mall.ShoppingMallMap :=
  match file with
  | None => (0, map)
  | Some lines =>
      (1, {| Mall.areas := read_records Mall.MAX_AREAS scan_area lines [];
             Mall.connections := Mall.connections map |})
  end.

(** [load_connections_from_file] *)
Definition load_connections_from_file (map : Mall.ShoppingMallMap)
    (file : option (list string)) : Z * Mall.ShoppingMallMap :=
  match file with
  | None => (0, map)
  | Some lines =>
      (1, {| Mall.areas := Mall.areas map;
             Mall.connections :=
               read_records Mall.MAX_CONNECTIONS scan_connection lines [] |})
  end.

End MallFiles.

(** The opposite of a direction code. *)
Definition opposite_direction (d : Z) : Z := (d + 2) mod 4.

(** What a connection says besides its [blocked] flag. *)
Definition connection_link (c : Mall.Connection) : Z * Z * Qc :=
  (Mall.from c, Mall.to c, Mall.distance c).

(** ** Notions used to tell the edges the search followed

    The search records parent links, not edges. *)



(** * Properties *)

(** ** The number model *)

Lemma Qcltb_lt (a b : Qc) : Qcltb a b = true <-> (a < b)%Qc.
Proof. unfold Qcltb. apply bool_decide_eq_true. Qed.

Lemma Qcltb_ge (a b : Qc) : Qcltb a b = false <-> (b <= a)%Qc.
Proof.
  unfold Qcltb. rewrite bool_decide_eq_false. split.
  - apply Qcnot_lt_le.
  - apply Qcle_not_lt.
Qed.

Lemma flt_0 : flt 0.0 = 0%Qc.
Proof. apply Qc_is_canon. reflexivity. Qed.

Lemma flt_1 : flt 1.0 = 1%Qc.
Proof. apply Qc_is_canon. reflexivity. Qed.

(** ** The replanning policy *)

Lemma hazardous_spec (m : Mall.ShoppingMallMap) (area : Z) :
  Mall.hazardous m area = true <->
  exists a, In a (Mall.areas m) /\ Mall.id a = area /\
            (flt 0.8 < Mall.hazard_level a)%Qc.
Proof.
  unfold Mall.hazardous. rewrite existsb_exists. split.
  - intros (a & Hin & Hb). apply andb_true_iff in Hb as [Hid Hhz].
    exists a. rewrite Z.eqb_eq in Hid. rewrite Qcltb_lt in Hhz. auto.
  - intros (a & Hin & Hid & Hhz). exists a. split; [exact Hin|].
    apply andb_true_iff. rewrite Z.eqb_eq, Qcltb_lt. auto.
Qed.

Lemma scan_hits_spec (m : Mall.ShoppingMallMap) (path : Mall.EvacuationPath) :
  existsb (Mall.hazardous m) (Mall.active_ids path) = true <->
  exists i a, (i < Z.to_nat (Mall.length path))%nat /\ In a (Mall.areas m) /\
              Mall.id a = Mall.area_id_at path i /\
              (flt 0.8 < Mall.hazard_level a)%Qc.
Proof.
  unfold Mall.active_ids. rewrite existsb_exists. split.
  - intros (area & Hin & Hhz). apply in_map_iff in Hin as (i & <- & Hi).
    apply in_seq in Hi. apply hazardous_spec in Hhz as (a & Ha & Hid & Hlt).
    exists i, a. repeat split; auto; lia.
  - intros (i & a & Hi & Ha & Hid & Hlt).
    exists (Mall.area_id_at path i). split.
    + apply in_map. apply in_seq. lia.
    + apply hazardous_spec. eauto.
Qed.

(** [find_nearest_exit] returns the id of the first area, in array order,
    whose exit flag is set, whatever the current area. *)
Lemma find_nearest_exit_first (m : Mall.ShoppingMallMap) (current_area : Z) :
  (Mall.find_nearest_exit m current_area = -1 /\
   Forall (fun a => Mall.is_exit a = 0) (Mall.areas m)) \/
  (exists pre a post,
     Mall.areas m = pre ++ a :: post /\
     Forall (fun a' => Mall.is_exit a' = 0) pre /\
     Mall.is_exit a <> 0 /\
     Mall.find_nearest_exit m current_area = Mall.id a).
Proof.
  unfold Mall.find_nearest_exit.
  induction (Mall.areas m) as [|a l IH]; simpl.
  - left. split; [reflexivity | constructor].
  - destruct (Z.eqb_spec (Mall.is_exit a) 0) as [Hz|Hnz]; simpl.
    + destruct IH as [[Hr Hall] | (pre & a' & post & Hl & Hpre & Hex & Hr)].
      * left. split; [exact Hr | constructor; assumption].
      * right. exists (a :: pre), a', post.
        split; [simpl; congruence|]. split; [constructor; assumption|].
        split; assumption.
    + right. exists [], a, l. split; [reflexivity|].
      split; [constructor|]. split; [assumption | reflexivity].
Qed.

(** C4: when no entry in use of the active path names an area whose hazard
    level exceeds 0.8, [update_path_dynamically] returns the path it was
    given: the same array of area ids, the same length, the same total
    distance. *)
Theorem update_path_dynamically_keeps_safe_path
    (m : Mall.ShoppingMallMap) (path : Mall.EvacuationPath) (current_area : Z) :
  (forall i a, (i < Z.to_nat (Mall.length path))%nat ->
               In a (Mall.areas m) ->
               Mall.id a = Mall.area_id_at path i ->
               (Mall.hazard_level a <= flt 0.8)%Qc) ->
  Mall.update_path_dynamically m path current_area = path.
Proof.
  intros Hsafe. unfold Mall.update_path_dynamically.
  destruct (existsb _ _) eqn:Hscan; [|reflexivity].
  apply scan_hits_spec in Hscan as (i & a & Hi & Ha & Hid & Hlt).
  exfalso. eapply Qcle_not_lt; [apply (Hsafe i a Hi Ha Hid) | exact Hlt].
Qed.

Lemma update_path_dynamically_keeps_safe_path_witness :
  Mall.update_path_dynamically calm_mall path_via_shop 101 = path_via_shop.
Proof.
  apply (update_path_dynamically_keeps_safe_path calm_mall path_via_shop 101).
  intros i a Hi Ha _. simpl in Ha.
  assert (Hh : Mall.hazard_level a = flt 0.25).
  { intuition (subst; reflexivity). }
  rewrite Hh. apply Qcltb_ge. vm_compute. reflexivity.
Defined.

(** C3: the replanning step does not determine the exit nearest to the
    current position.  In [two_exit_mall] the active path crosses the
    hazardous area 102, and the replanned path leads to exit 201, the
    first exit of the area array, although exit 202 is strictly nearer to
    the current area 101. *)
Lemma replanned_exit_is_not_nearest :
  let new_path := Mall.update_path_dynamically two_exit_mall path_via_shop 101 in
  Mall.hazardous two_exit_mall 102 = true /\
  Mall.active_ids new_path = [101; 201] /\
  ~ nearest_exit two_exit_mall 101 (Mall.find_nearest_exit two_exit_mall 101).
Proof.
  split; [reflexivity|]. split; [reflexivity|].
  intros [_ Hmin].
  assert (Hex : is_exit_area two_exit_mall 202).
  { eexists {| Mall.id := 202; Mall.name := "south exit"; Mall.is_exit := 1;
               Mall.hazard_level := flt 0.0 |}.
    simpl. repeat split; auto; lia. }
  specialize (Hmin 202 Hex). revert Hmin. apply Qclt_not_le.
  apply Qcltb_lt. vm_compute. reflexivity.
Qed.

(** ** The graph store *)

Lemma has_node_spec (g : graph_t) (id : Z) :
  has_node g id = true <-> In id (node_ids g).
Proof.
  unfold has_node, node_ids. rewrite existsb_exists, in_map_iff.
  split; intros (n & H1 & H2).
  - exists n. rewrite Z.eqb_eq in H2. auto.
  - exists n. rewrite Z.eqb_eq. auto.
Qed.

Lemma has_edge_spec (g : graph_t) (id : Z) :
  has_edge g id = true <-> In id (edge_ids g).
Proof.
  unfold has_edge, edge_ids. rewrite existsb_exists, in_map_iff.
  split; intros (n & H1 & H2).
  - exists n. rewrite Z.eqb_eq in H2. auto.
  - exists n. rewrite Z.eqb_eq. auto.
Qed.

Lemma has_node_false (g : graph_t) (id : Z) :
  has_node g id = false <-> ~ In id (node_ids g).
Proof. rewrite <- has_node_spec. destruct (has_node g id); intuition congruence. Qed.

(** Both inserts either succeed with code 0 or return -1 with the graph
    they were given. *)
Lemma add_node_cases (id area : Z) (px py : Qc) (g : graph_t) :
  add_node id area px py g = (-1, g) \/
  (~ In id (node_ids g) /\ num_nodes g < MAX_NODES /\
   add_node id area px py g =
     (0, {| nodes := nodes g ++
              [{| node_id := id; area_id := area; x := px; y := py |}];
            edges := edges g |})).
Proof.
  unfold add_node. destruct (has_node g id) eqn:Hdup; [left; reflexivity|].
  destruct (Z.leb_spec MAX_NODES (num_nodes g)); [left; reflexivity|].
  right. apply has_node_false in Hdup. auto.
Qed.

Lemma add_edge_cases (id s e : Z) (d : Qc) (g : graph_t) :
  add_edge id s e d g = (-1, g) \/
  (~ In id (edge_ids g) /\ num_edges g < MAX_EDGES /\
   In s (node_ids g) /\ In e (node_ids g) /\
   add_edge id s e d g =
     (0, {| nodes := nodes g;
            edges := edges g ++
              [{| edge_id := id; start_node := s; end_node := e;
                  distance := d; risk_factor := 0%Qc |}] |})).
Proof.
  unfold add_edge. destruct (has_edge g id) eqn:Hdup; [left; reflexivity|].
  destruct (Z.leb_spec MAX_EDGES (num_edges g)); [left; reflexivity|].
  destruct (has_node g s) eqn:Hs; simpl; [|left; reflexivity].
  destruct (has_node g e) eqn:He; simpl; [|left; reflexivity].
  right. apply has_node_spec in Hs, He.
  assert (~ In id (edge_ids g)).
  { rewrite <- has_edge_spec. congruence. }
  auto 6.
Qed.

(** C7: [add_node] fails on an id already present and on a full node
    array; [add_edge] fails on an id already present, on a full edge array
    and on an endpoint that is not a node of the graph; and every failed
    insert returns -1 and leaves the node and edge arrays as they were. *)
Theorem rejected_insert_leaves_graph_intact (g : graph_t) :
  MAX_NODES = 100 /\ MAX_EDGES = 200 /\
  (forall id area px py,
     In id (node_ids g) \/ MAX_NODES <= num_nodes g ->
     add_node id area px py g = (-1, g)) /\
  (forall id s e d,
     In id (edge_ids g) \/ MAX_EDGES <= num_edges g \/
     ~ In s (node_ids g) \/ ~ In e (node_ids g) ->
     add_edge id s e d g = (-1, g)) /\
  (forall id area px py,
     (add_node id area px py g).1 <> 0 ->
     add_node id area px py g = (-1, g)) /\
  (forall id s e d,
     (add_edge id s e d g).1 <> 0 ->
     add_edge id s e d g = (-1, g)).
Proof.
  split; [reflexivity|]. split; [reflexivity|]. repeat split.
  - intros id area px py Hc.
    destruct (add_node_cases id area px py g) as [H | (Hn & Hlt & _)];
      [exact H | exfalso; destruct Hc; [tauto | lia]].
  - intros id s e d Hc.
    destruct (add_edge_cases id s e d g) as [H | (Hn & Hlt & Hs & He & _)];
      [exact H | exfalso; destruct Hc as [?|[?|[?|?]]]; [tauto | lia | tauto | tauto]].
  - intros id area px py Hrc.
    destruct (add_node_cases id area px py g) as [H | (_ & _ & H)];
      [exact H | rewrite H in Hrc; simpl in Hrc; congruence].
  - intros id s e d Hrc.
    destruct (add_edge_cases id s e d g) as [H | (_ & _ & _ & _ & H)];
      [exact H | rewrite H in Hrc; simpl in Hrc; congruence].
Qed.

Lemma rejected_insert_leaves_graph_intact_witness :
  add_node 3 109 (flt 1) (flt 1) square_map = (-1, square_map) /\
  add_node 500 0 (flt 1) (flt 1) crowded_map = (-1, crowded_map) /\
  add_edge 5 1 2 (flt 1) square_map = (-1, square_map) /\
  add_edge 500 0 1 (flt 1) crowded_map = (-1, crowded_map) /\
  add_edge 6 7 1 (flt 1) square_map = (-1, square_map) /\
  add_edge 6 1 7 (flt 1) square_map = (-1, square_map) /\
  add_node 4 0 (flt 2) (flt 2) square_map = (-1, square_map) /\
  add_edge 7 9 9 (flt 2) square_map = (-1, square_map).
Proof.
  refine (conj _ (conj _ (conj _ (conj _ (conj _ (conj _ (conj _ _))))))).
  - apply (proj1 (proj2 (proj2 (rejected_insert_leaves_graph_intact square_map)))).
    left. vm_compute. auto.
  - apply (proj1 (proj2 (proj2 (rejected_insert_leaves_graph_intact crowded_map)))).
    right. apply Z.leb_le. reflexivity.
  - apply (proj1 (proj2 (proj2 (proj2 (rejected_insert_leaves_graph_intact square_map))))).
    left. vm_compute. auto 6.
  - apply (proj1 (proj2 (proj2 (proj2 (rejected_insert_leaves_graph_intact crowded_map))))).
    right. left. apply Z.leb_le. reflexivity.
  - apply (proj1 (proj2 (proj2 (proj2 (rejected_insert_leaves_graph_intact square_map))))).
    right. right. left. vm_compute. intros H. decompose [or] H; discriminate || assumption.
  - apply (proj1 (proj2 (proj2 (proj2 (rejected_insert_leaves_graph_intact square_map))))).
    right. right. right. vm_compute. intros H. decompose [or] H; discriminate || assumption.
  - apply (proj1 (proj2 (proj2 (proj2 (proj2
             (rejected_insert_leaves_graph_intact square_map)))))).
    vm_compute. discriminate.
  - apply (proj2 (proj2 (proj2 (proj2 (proj2
             (rejected_insert_leaves_graph_intact square_map)))))).
    vm_compute. discriminate.
Defined.

(** *** Risk factors stay in range *)

Lemma Qc_0_le_1 : (0 <= 1)%Qc.
Proof. apply Qcltb_ge. reflexivity. Qed.

Lemma edge_risk_of_in_range (g : graph_t) (env : EnvironmentalData_t)
    (e : graph_edge_t) :
  (0 <= edge_risk_of g env e)%Qc /\ (edge_risk_of g env e <= 1)%Qc.
Proof.
  unfold edge_risk_of. cbv zeta.
  set (s := (int_to_float _ / _)%Qc).
  set (r0 := if Qcltb s s then s else s).
  rewrite flt_0, flt_1.
  destruct (Qcltb 1 r0) eqn:Hhi.
  - replace (Qcltb 1 0) with false by reflexivity.
    split; [apply Qc_0_le_1 | apply Qcle_refl].
  - apply Qcltb_ge in Hhi. destruct (Qcltb r0 0) eqn:Hlo.
    + split; [apply Qcle_refl | apply Qc_0_le_1].
    + apply Qcltb_ge in Hlo. split; assumption.
Qed.

Lemma add_node_edges (id area : Z) (px py : Qc) (g : graph_t) :
  edges (add_node id area px py g).2 = edges g.
Proof.
  destruct (add_node_cases id area px py g) as [H | (_ & _ & H)];
    rewrite H; reflexivity.
Qed.

Lemma add_edge_edges (id s e : Z) (d : Qc) (g : graph_t) :
  edges (add_edge id s e d g).2 = edges g \/
  edges (add_edge id s e d g).2 =
    edges g ++ [{| edge_id := id; start_node := s; end_node := e;
                   distance := d; risk_factor := 0%Qc |}].
Proof.
  destruct (add_edge_cases id s e d g) as [H | (_ & _ & _ & _ & H)];
    rewrite H; auto.
Qed.

Section LoaderFacts.

Variable scan_node : string -> option (Z * Z * Qc * Qc).
Variable scan_edge : string -> option (Z * Z * Z * Qc).

(** A property of the edge array that both inserts preserve is preserved
    by a map load, whether it succeeds or fails. *)
Lemma read_nodes_edges (lines : list string) (g : graph_t) :
  edges (read_nodes scan_node lines g).1.2 = edges g.
Proof.
  revert g. induction lines as [|line rest IH]; intros g; simpl; [reflexivity|].
  destruct (has_tag "EDGES" line); [reflexivity|].
  destruct (scan_node line) as [[[[id area] px] py]|]; [|apply IH].
  pose proof (add_node_edges id area px py g) as He.
  destruct (add_node id area px py g) as [rc g'] eqn:Hadd. simpl in He.
  destruct (negb (rc =? 0)); simpl; [exact He|].
  rewrite IH. exact He.
Qed.

Lemma read_edges_invariant (P : list graph_edge_t -> Prop)
    (lines : list string) (g : graph_t) :
  (forall es e, P es -> risk_factor e = 0%Qc -> P (es ++ [e])) ->
  P (edges g) ->
  P (edges (read_edges scan_edge lines g).2).
Proof.
  intros Hstep. revert g.
  induction lines as [|line rest IH]; intros g Hg; simpl; [exact Hg|].
  destruct (scan_edge line) as [[[[id s] e] d]|]; [|apply IH; exact Hg].
  pose proof (add_edge_edges id s e d g) as He.
  destruct (add_edge id s e d g) as [rc g'] eqn:Hadd. simpl in He.
  assert (Hg' : P (edges g')).
  { destruct He as [-> | ->]; [exact Hg | apply Hstep; [exact Hg | reflexivity]]. }
  destruct (negb (rc =? 0)); simpl; [exact Hg' | apply IH; exact Hg'].
Qed.

Lemma load_map_data_invariant (P : list graph_edge_t -> Prop)
    (file : option (list string)) (g : graph_t) :
  (forall es e, P es -> risk_factor e = 0%Qc -> P (es ++ [e])) ->
  P (edges g) ->
  P (edges (load_map_data scan_node scan_edge file g).2).
Proof.
  intros Hstep Hg. unfold load_map_data.
  destruct file as [[|header rest]|]; try exact Hg.
  destruct (negb (has_tag "NODES" header)); [exact Hg|].
  pose proof (read_nodes_edges rest g) as He.
  destruct (read_nodes scan_node rest g) as [[rc g1] rest1]. simpl in He.
  destruct (negb (rc =? 0)); simpl.
  - rewrite He. exact Hg.
  - apply read_edges_invariant; [exact Hstep | rewrite He; exact Hg].
Qed.

Lemma apply_op_invariant (P : list graph_edge_t -> Prop)
    (op : graph_op) (g : graph_t) :
  P [] ->
  (forall es e, P es -> risk_factor e = 0%Qc -> P (es ++ [e])) ->
  is_risk_update op = false ->
  P (edges g) ->
  P (edges (apply_op scan_node scan_edge g op)).
Proof.
  intros Hnil Hstep Hop Hg. destruct op; simpl; try exact Hnil.
  - rewrite add_node_edges. exact Hg.
  - destruct (add_edge_edges id s e d g) as [-> | ->];
      [exact Hg | apply Hstep; [exact Hg | reflexivity]].
  - discriminate Hop.
  - apply load_map_data_invariant; assumption.
Qed.

Lemma in_range_snoc (es : list graph_edge_t) (e : graph_edge_t) :
  Forall (fun e => (0 <= risk_factor e)%Qc /\ (risk_factor e <= 1)%Qc) es ->
  risk_factor e = 0%Qc ->
  Forall (fun e => (0 <= risk_factor e)%Qc /\ (risk_factor e <= 1)%Qc)
         (es ++ [e]).
Proof.
  intros Hes He. apply Forall_app. split; [exact Hes|].
  constructor; [|constructor]. rewrite He.
  split; [apply Qcle_refl | apply Qc_0_le_1].
Qed.

Lemma update_edge_risks_in_range (env : EnvironmentalData_t) (g : graph_t) :
  risk_in_range (update_edge_risks (Some env) g).2.
Proof.
  unfold risk_in_range. simpl. apply Forall_forall. intros e He.
  apply in_map_iff in He as (e0 & <- & _). simpl.
  apply edge_risk_of_in_range.
Qed.

Lemma apply_op_in_range (op : graph_op) (g : graph_t) :
  risk_in_range g -> risk_in_range (apply_op scan_node scan_edge g op).
Proof.
  intros Hg. destruct (is_risk_update op) eqn:Hop.
  - destruct op; try discriminate Hop. destruct env_data as [env|].
    + apply update_edge_risks_in_range.
    + exact Hg.
  - unfold risk_in_range.
    apply (apply_op_invariant
             (Forall (fun e => (0 <= risk_factor e)%Qc /\ (risk_factor e <= 1)%Qc)));
      [constructor | apply in_range_snoc | exact Hop | exact Hg].
Qed.

(** C5: after every sequence of graph operations on the initialised
    module (inserts, map loads, risk updates with any reading, resets)
    every edge's risk factor lies in [0,1]; and [update_edge_risks] puts
    every risk factor into [0,1] for any reading and any graph. *)
Theorem risk_factor_always_in_unit_interval :
  (forall ops : list graph_op,
     risk_in_range (run_ops scan_node scan_edge ops)) /\
  (forall (env : EnvironmentalData_t) (g : graph_t),
     risk_in_range (update_edge_risks (Some env) g).2) /\
  (forall id s e d g,
     risk_in_range g -> risk_in_range (add_edge id s e d g).2).
Proof.
  split; [|split].
  - intros ops. unfold run_ops.
    assert (Hgen : forall g, risk_in_range g ->
              risk_in_range (fold_left (apply_op scan_node scan_edge) ops g)).
    { induction ops as [|op ops IH]; intros g Hg; simpl; [exact Hg|].
      apply IH. apply apply_op_in_range. exact Hg. }
    apply Hgen. constructor.
  - apply update_edge_risks_in_range.
  - intros id s e d g Hg.
    apply (apply_op_in_range (OpAddEdge id s e d) g Hg).
Qed.

End LoaderFacts.

Lemma risk_factor_always_in_unit_interval_witness :
  risk_in_range (add_edge 6 2 4 (flt 3) square_map).2.
Proof.
  apply (proj2 (proj2 (risk_factor_always_in_unit_interval Scan.node Scan.edge))
           6 2 4 (flt 3) square_map).
  apply (proj1 (risk_factor_always_in_unit_interval Scan.node Scan.edge)
           [OpAddNode 1 101 (flt 0) (flt 0); OpAddNode 2 102 (flt 10) (flt 0);
            OpAddNode 3 103 (flt 10) (flt 10); OpAddNode 4 104 (flt 0) (flt 10);
            OpAddEdge 1 1 2 (flt 10.0); OpAddEdge 2 2 3 (flt 10.0);
            OpAddEdge 3 3 4 (flt 10.0); OpAddEdge 4 4 1 (flt 10.0);
            OpAddEdge 5 1 3 (flt 14.14)]).
Defined.

(** *** Fresh edges carry no risk *)

Lemma zero_risk_cost (e : graph_edge_t) :
  risk_factor e = 0%Qc -> edge_cost e = distance e.
Proof.
  intros H. unfold edge_cost, risk_weight. rewrite H, flt_1. ring.
Qed.

Lemma zero_risk_snoc (es : list graph_edge_t) (e : graph_edge_t) :
  Forall (fun e => risk_factor e = 0%Qc) es ->
  risk_factor e = 0%Qc ->
  Forall (fun e => risk_factor e = 0%Qc) (es ++ [e]).
Proof.
  intros Hes He. apply Forall_app. split; [exact Hes|].
  constructor; [exact He | constructor].
Qed.

Section FreshEdges.

Variable scan_node : string -> option (Z * Z * Qc * Qc).
Variable scan_edge : string -> option (Z * Z * Z * Qc).

Lemma run_ops_zero_risk (ops : list graph_op) (g : graph_t) :
  forallb (fun op => negb (is_risk_update op)) ops = true ->
  Forall (fun e => risk_factor e = 0%Qc) (edges g) ->
  Forall (fun e => risk_factor e = 0%Qc)
         (edges (fold_left (apply_op scan_node scan_edge) ops g)).
Proof.
  revert g. induction ops as [|op ops IH]; intros g Hops Hg; simpl; [exact Hg|].
  simpl in Hops. apply andb_true_iff in Hops as [Hop Hops].
  apply IH; [exact Hops|].
  apply (apply_op_invariant scan_node scan_edge
           (Forall (fun e => risk_factor e = 0%Qc)));
    [constructor | apply zero_risk_snoc | | exact Hg].
  destruct (is_risk_update op); [discriminate Hop | reflexivity].
Qed.

(** C10: an edge inserted by [add_edge] has risk factor exactly 0; hence
    after a successful [load_map_data] on the initialised module, and more
    generally after any sequence of operations without a risk update,
    every edge has risk factor 0 and the search's edge cost equals the
    edge's distance. *)
Theorem inserted_edge_has_zero_risk :
  (forall id s e d g g',
     add_edge id s e d g = (0, g') ->
     exists new, edges g' = edges g ++ [new] /\ edge_id new = id /\
                 distance new = d /\ risk_factor new = 0%Qc /\
                 edge_cost new = d) /\
  (forall file g',
     load_map_data scan_node scan_edge file path_planning_init = (0, g') ->
     Forall (fun e => risk_factor e = 0%Qc /\ edge_cost e = distance e)
            (edges g')) /\
  (forall ops,
     forallb (fun op => negb (is_risk_update op)) ops = true ->
     Forall (fun e => risk_factor e = 0%Qc /\ edge_cost e = distance e)
            (edges (run_ops scan_node scan_edge ops))).
Proof.
  assert (Hcost : forall es, Forall (fun e => risk_factor e = 0%Qc) es ->
            Forall (fun e => risk_factor e = 0%Qc /\ edge_cost e = distance e) es).
  { intros es Hes. eapply Forall_impl; [|exact Hes].
    simpl. intros e He. split; [exact He | apply zero_risk_cost; exact He]. }
  split; [|split].
  - intros id s e d g g' Hadd.
    destruct (add_edge_cases id s e d g) as [H | (_ & _ & _ & _ & H)];
      rewrite H in Hadd; [discriminate Hadd|].
    injection Hadd as <-. eexists. split; [reflexivity|]. simpl.
    repeat split. apply (zero_risk_cost
      {| edge_id := id; start_node := s; end_node := e;
         distance := d; risk_factor := 0%Qc |}). reflexivity.
  - intros file g' Hload. apply Hcost.
    pose proof (load_map_data_invariant scan_node scan_edge
                  (Forall (fun e => risk_factor e = 0%Qc)) file
                  path_planning_init zero_risk_snoc) as Hinv.
    rewrite Hload in Hinv. apply Hinv. constructor.
  - intros ops Hops. apply Hcost. unfold run_ops.
    apply run_ops_zero_risk; [exact Hops | constructor].
Qed.

End FreshEdges.

Lemma inserted_edge_has_zero_risk_witness :
  (exists new,
     edges (add_edge 6 2 4 (flt 3) square_map).2 = edges square_map ++ [new] /\
     risk_factor new = 0%Qc) /\
  Forall (fun e => risk_factor e = 0%Qc /\ edge_cost e = distance e)
         (edges (load_map_data Scan.node Scan.edge (Some small_map_file)
                               path_planning_init).2) /\
  Forall (fun e => risk_factor e = 0%Qc /\ edge_cost e = distance e)
         (edges (run_ops Scan.node Scan.edge
                   [OpLoadMapData (Some small_map_file);
                    OpAddNode 3 103 (flt 10) (flt 10);
                    OpAddEdge 3 2 3 (flt 10.0)])).
Proof.
  refine (conj _ (conj _ _)).
  - destruct (proj1 (inserted_edge_has_zero_risk Scan.node Scan.edge)
                6 2 4 (flt 3) square_map (add_edge 6 2 4 (flt 3) square_map).2
                ltac:(vm_compute; reflexivity))
      as (new & Hnew & _ & _ & Hrisk & _).
    exists new. split; [exact Hnew | exact Hrisk].
  - apply (proj1 (proj2 (inserted_edge_has_zero_risk Scan.node Scan.edge))
             (Some small_map_file)).
    vm_compute. reflexivity.
  - apply (proj2 (proj2 (inserted_edge_has_zero_risk Scan.node Scan.edge))).
    reflexivity.
Defined.

(** *** Failed map loads *)

Lemma add_node_nodes (id area : Z) (px py : Qc) (g : graph_t) :
  nodes (add_node id area px py g).2 = nodes g \/
  exists n, nodes (add_node id area px py g).2 = nodes g ++ [n].
Proof.
  destruct (add_node_cases id area px py g) as [H | (_ & _ & H)];
    rewrite H; simpl; eauto.
Qed.

Lemma add_edge_nodes (id s e : Z) (d : Qc) (g : graph_t) :
  nodes (add_edge id s e d g).2 = nodes g.
Proof.
  destruct (add_edge_cases id s e d g) as [H | (_ & _ & _ & _ & H)];
    rewrite H; reflexivity.
Qed.

Lemma add_node_failure (id area : Z) (px py : Qc) (g : graph_t) :
  (add_node id area px py g).1 <> 0 -> add_node id area px py g = (-1, g).
Proof.
  intros Hrc. destruct (add_node_cases id area px py g) as [H | (_ & _ & H)];
    [exact H | rewrite H in Hrc; simpl in Hrc; congruence].
Qed.

Lemma add_edge_failure (id s e : Z) (d : Qc) (g : graph_t) :
  (add_edge id s e d g).1 <> 0 -> add_edge id s e d g = (-1, g).
Proof.
  intros Hrc.
  destruct (add_edge_cases id s e d g) as [H | (_ & _ & _ & _ & H)];
    [exact H | rewrite H in Hrc; simpl in Hrc; congruence].
Qed.

Section FailedLoads.

Variable scan_node : string -> option (Z * Z * Qc * Qc).
Variable scan_edge : string -> option (Z * Z * Z * Qc).

(** Node lines read without failure and without reaching the [EDGES]
    line can be followed by further lines. *)
Lemma read_nodes_app (pre more : list string) (g g1 : graph_t) :
  Forall (fun l => has_tag "EDGES" l = false) pre ->
  read_nodes scan_node pre g = (0, g1, []) ->
  read_nodes scan_node (pre ++ more) g = read_nodes scan_node more g1.
Proof.
  revert g. induction pre as [|line pre IH]; intros g Htags Hread; simpl in *.
  - injection Hread as ->. reflexivity.
  - inversion Htags as [|? ? Htag Htags']; subst. rewrite Htag in *.
    destruct (scan_node line) as [[[[id area] px] py]|]; [|apply IH; assumption].
    destruct (add_node id area px py g) as [rc g'].
    destruct (negb (rc =? 0)); [discriminate Hread|].
    apply IH; assumption.
Qed.

Lemma read_edges_app (pre more : list string) (g g2 : graph_t) :
  read_edges scan_edge pre g = (0, g2) ->
  read_edges scan_edge (pre ++ more) g = read_edges scan_edge more g2.
Proof.
  revert g. induction pre as [|line pre IH]; intros g Hread; simpl in *.
  - injection Hread as ->. reflexivity.
  - destruct (scan_edge line) as [[[[id s] e] d]|]; [|apply IH; assumption].
    destruct (add_edge id s e d g) as [rc g'].
    destruct (negb (rc =? 0)); [discriminate Hread|].
    apply IH; assumption.
Qed.

Lemma read_nodes_nodes_invariant (P : list graph_node_t -> Prop)
    (lines : list string) (g : graph_t) :
  (forall ns n, P ns -> P (ns ++ [n])) ->
  P (nodes g) ->
  P (nodes (read_nodes scan_node lines g).1.2).
Proof.
  intros Hstep. revert g.
  induction lines as [|line rest IH]; intros g Hg; simpl; [exact Hg|].
  destruct (has_tag "EDGES" line); [exact Hg|].
  destruct (scan_node line) as [[[[id area] px] py]|]; [|apply IH; exact Hg].
  pose proof (add_node_nodes id area px py g) as Hn.
  destruct (add_node id area px py g).
  assert (Hg' : P (nodes g0)).
  { simpl in Hn. destruct Hn as [-> | [n ->]]; [exact Hg | apply Hstep; exact Hg]. }
  destruct (negb (z =? 0)); simpl; [exact Hg' | apply IH; exact Hg'].
Qed.

Lemma read_edges_nodes (lines : list string) (g : graph_t) :
  nodes (read_edges scan_edge lines g).2 = nodes g.
Proof.
  revert g. induction lines as [|line rest IH]; intros g; simpl; [reflexivity|].
  destruct (scan_edge line) as [[[[id s] e] d]|]; [|apply IH].
  pose proof (add_edge_nodes id s e d g) as Hn.
  destruct (add_edge id s e d g). simpl in Hn.
  destruct (negb (z =? 0)); simpl; [exact Hn | rewrite IH; exact Hn].
Qed.

Lemma prefix_snoc {A} (l k : list A) (a : A) :
  l `prefix_of` k -> l `prefix_of` (k ++ [a]).
Proof. intros [m ->]. exists (m ++ [a]). rewrite <- app_assoc. reflexivity. Qed.

(** A load never removes or rewrites what the graph held: the old arrays
    are prefixes of the new ones, whatever the return code. *)
Lemma load_map_data_extends (file : option (list string)) (g : graph_t) :
  nodes g `prefix_of` nodes (load_map_data scan_node scan_edge file g).2 /\
  edges g `prefix_of` edges (load_map_data scan_node scan_edge file g).2.
Proof.
  split.
  - unfold load_map_data.
    destruct file as [[|header rest]|]; try reflexivity.
    destruct (negb (has_tag "NODES" header)); [reflexivity|].
    pose proof (read_nodes_nodes_invariant (fun ns => nodes g `prefix_of` ns)
                  rest g (fun ns n => prefix_snoc (nodes g) ns n)) as Hn.
    destruct (read_nodes scan_node rest g) as [[rc g1] rest1]. simpl in Hn.
    destruct (negb (rc =? 0)); simpl.
    + apply Hn. reflexivity.
    + rewrite read_edges_nodes. apply Hn. reflexivity.
  - apply (load_map_data_invariant scan_node scan_edge
             (fun es => edges g `prefix_of` es)).
    + intros es e Hes _. apply prefix_snoc. exact Hes.
    + reflexivity.
Qed.

(** C8, as the code has it: [load_map_data] returns -1 on a file that
    cannot be opened, on a missing [NODES] header, and at the first node or
    edge line whose insert fails.  In the first two cases the graph is
    left as it was; in the last two the graph keeps every node and edge
    inserted by the lines before the failing one.  No load, failed or not,
    removes anything from the graph. *)
Theorem failed_load_keeps_inserted_prefix (g : graph_t) :
  load_map_data scan_node scan_edge None g = (-1, g) /\
  load_map_data scan_node scan_edge (Some []) g = (-1, g) /\
  (forall header rest,
     has_tag "NODES" header = false ->
     load_map_data scan_node scan_edge (Some (header :: rest)) g = (-1, g)) /\
  (forall header pre line rest g1 id area px py,
     has_tag "NODES" header = true ->
     Forall (fun l => has_tag "EDGES" l = false) (pre ++ [line]) ->
     read_nodes scan_node pre g = (0, g1, []) ->
     scan_node line = Some (id, area, px, py) ->
     (add_node id area px py g1).1 <> 0 ->
     load_map_data scan_node scan_edge (Some (header :: pre ++ line :: rest)) g
     = (-1, g1)) /\
  (forall header nlines tag pre line rest g1 g2 id s e d,
     has_tag "NODES" header = true ->
     Forall (fun l => has_tag "EDGES" l = false) nlines ->
     has_tag "EDGES" tag = true ->
     read_nodes scan_node nlines g = (0, g1, []) ->
     read_edges scan_edge pre g1 = (0, g2) ->
     scan_edge line = Some (id, s, e, d) ->
     (add_edge id s e d g2).1 <> 0 ->
     load_map_data scan_node scan_edge
       (Some (header :: nlines ++ tag :: pre ++ line :: rest)) g
     = (-1, g2)) /\
  (forall file,
     nodes g `prefix_of` nodes (load_map_data scan_node scan_edge file g).2 /\
     edges g `prefix_of` edges (load_map_data scan_node scan_edge file g).2).
Proof.
  split; [reflexivity|]. split; [reflexivity|].
  split; [|split; [|split]].
  - intros header rest Htag. unfold load_map_data. rewrite Htag. reflexivity.
  - intros header pre line rest g1 id area px py Hhd Htags Hpre Hscan Hfail.
    apply Forall_app in Htags as [Hpre_tags Hline].
    inversion Hline as [|? ? Hline_tag _]; subst.
    unfold load_map_data. rewrite Hhd. simpl negb. cbv iota.
    rewrite (read_nodes_app pre (line :: rest) g g1 Hpre_tags Hpre).
    simpl. rewrite Hline_tag, Hscan.
    rewrite (add_node_failure id area px py g1 Hfail). reflexivity.
  - intros header nlines tag pre line rest g1 g2 id s e d
           Hhd Htags Htag Hnodes Hedges Hscan Hfail.
    unfold load_map_data. rewrite Hhd. simpl negb. cbv iota.
    rewrite (read_nodes_app nlines (tag :: pre ++ line :: rest) g g1 Htags Hnodes).
    simpl. rewrite Htag. simpl.
    rewrite (read_edges_app pre (line :: rest) g1 g2 Hedges).
    simpl. rewrite Hscan.
    rewrite (add_edge_failure id s e d g2 Hfail). reflexivity.
  - intros file. apply load_map_data_extends.
Qed.

End FailedLoads.

Lemma failed_load_keeps_inserted_prefix_witness :
  load_map_data Scan.node Scan.edge (Some ["x"%string]) square_map
    = (-1, square_map) /\
  load_map_data Scan.node Scan.edge (Some duplicate_node_file)
                path_planning_init
    = (-1, (add_node 1 101 (flt 0) (flt 0) path_planning_init).2) /\
  load_map_data Scan.node Scan.edge (Some dangling_edge_file)
                path_planning_init
    = (-1, (load_map_data Scan.node Scan.edge
              (Some (firstn 5 dangling_edge_file)) path_planning_init).2).
Proof.
  refine (conj _ (conj _ _)).
  - apply (proj1 (proj2 (proj2
      (failed_load_keeps_inserted_prefix Scan.node Scan.edge square_map)))).
    reflexivity.
  - eapply (proj1 (proj2 (proj2 (proj2
      (failed_load_keeps_inserted_prefix Scan.node Scan.edge path_planning_init))))
      "NODES"%string ["1 101 0 0"%string] "1 102 5 5"%string
      ["EDGES"; "1 1 1 3.5"]%string
      (add_node 1 101 (flt 0) (flt 0) path_planning_init).2).
    + reflexivity.
    + repeat constructor.
    + vm_compute. reflexivity.
    + reflexivity.
    + vm_compute. discriminate.
  - eapply (proj1 (proj2 (proj2 (proj2 (proj2
      (failed_load_keeps_inserted_prefix Scan.node Scan.edge path_planning_init)))))
      "NODES"%string ["1 101 0 0"; "2 102 10 0"]%string "EDGES"%string
      ["1 1 2 10.0"%string] "2 2 9 4.0"%string []
      (read_nodes Scan.node ["1 101 0 0"; "2 102 10 0"]%string
                  path_planning_init).1.2
      (read_edges Scan.edge ["1 1 2 10.0"%string]
         (read_nodes Scan.node ["1 101 0 0"; "2 102 10 0"]%string
                     path_planning_init).1.2).2).
    + reflexivity.
    + repeat constructor.
    + reflexivity.
    + vm_compute. reflexivity.
    + vm_compute. reflexivity.
    + reflexivity.
    + vm_compute. discriminate.
Defined.

(** C8 fails as stated: loading [duplicate_node_file] into the initialised
    module returns -1 at its third line and the graph keeps node 1, read
    before the failure; loading [dangling_edge_file] returns -1 at its last
    line and the graph keeps both nodes and the first edge. *)
Lemma failed_load_retains_partial_graph :
  let r1 := load_map_data Scan.node Scan.edge (Some duplicate_node_file)
                          path_planning_init in
  let r2 := load_map_data Scan.node Scan.edge (Some dangling_edge_file)
                          path_planning_init in
  (r1.1 = -1 /\ node_ids r1.2 = [1]) /\
  (r2.1 = -1 /\ node_ids r2.2 = [1; 2] /\ edge_ids r2.2 = [1]).
Proof. vm_compute. repeat split. Qed.

(** ** The direction translator *)

Lemma float_of_Z_lt (a b : Z) :
  (float_of_Z a < float_of_Z b)%Qc <-> a < b.
Proof.
  unfold Qclt, float_of_Z, Q2Qc. simpl. rewrite !Qred_correct.
  rewrite <- Zlt_Qlt. reflexivity.
Qed.

Lemma float_of_Z_sub (a b : Z) :
  (float_of_Z a - float_of_Z b)%Qc = float_of_Z (a - b).
Proof.
  apply Qc_is_canon. unfold float_of_Z, Qcminus, Qcplus, Qcopp, Q2Qc. simpl.
  rewrite !Qred_correct. unfold Z.sub.
  rewrite inject_Z_plus, inject_Z_opp. reflexivity.
Qed.

Lemma float_of_Z_0 : float_of_Z 0 = 0%Qc.
Proof. apply Qc_is_canon. reflexivity. Qed.

Lemma float_of_Z_inj (a b : Z) : float_of_Z a = float_of_Z b -> a = b.
Proof.
  intros H.
  destruct (Z.lt_trichotomy a b) as [Hlt | [Heq | Hgt]]; [|exact Heq|].
  - apply float_of_Z_lt in Hlt. rewrite H in Hlt.
    apply (proj1 (float_of_Z_lt b b)) in Hlt. lia.
  - apply float_of_Z_lt in Hgt. rewrite H in Hgt.
    apply (proj1 (float_of_Z_lt b b)) in Hgt. lia.
Qed.

Lemma float_of_Z_abs (a : Z) :
  Qcabs (float_of_Z a) = float_of_Z (Z.abs a).
Proof.
  destruct (Z.le_gt_cases 0 a) as [Hpos | Hneg].
  - rewrite Z.abs_eq by exact Hpos. apply Qcabs_pos.
    rewrite <- float_of_Z_0. apply Qcnot_lt_le. rewrite float_of_Z_lt. lia.
  - rewrite Z.abs_neq by lia. rewrite Qcabs_neg.
    + replace (- float_of_Z a)%Qc with (float_of_Z 0 - float_of_Z a)%Qc
        by (rewrite float_of_Z_0; ring).
      rewrite float_of_Z_sub. reflexivity.
    + rewrite <- float_of_Z_0. apply Qclt_le_weak. apply float_of_Z_lt. exact Hneg.
Qed.

Lemma Qcltb_float_of_Z (a b : Z) :
  Qcltb (float_of_Z a) (float_of_Z b) = (a <? b).
Proof.
  unfold Qcltb.
  destruct (Z.ltb_spec a b) as [Hlt | Hge].
  - apply bool_decide_eq_true. apply float_of_Z_lt. exact Hlt.
  - apply bool_decide_eq_false. rewrite float_of_Z_lt. lia.
Qed.

Lemma Qfloor_float_of_Z (z : Z) : Qfloor (float_of_Z z) = z.
Proof.
  unfold float_of_Z, Q2Qc. simpl.
  rewrite (Qfloor_comp _ _ (Qred_correct (inject_Z z))). apply Qfloor_Z.
Qed.

(** Integers of magnitude up to 2^24 are binary32 values. *)
Lemma binary32_of_Z_exact (z : Z) :
  Z.abs z <= 2 ^ 24 -> binary32_of_Z z = z.
Proof.
  intros Hz. unfold binary32_of_Z. cbv zeta.
  destruct (Z.ltb_spec (Z.abs z) (2 ^ 24)) as [_|Hge]; [reflexivity|].
  assert (Habs : Z.abs z = 2 ^ 24) by lia.
  rewrite Habs.
  destruct (Z.abs_eq_or_opp z) as [H|H]; rewrite H in Habs.
  - rewrite Habs. reflexivity.
  - assert (Hz' : z = - 2 ^ 24) by lia. rewrite Hz'. reflexivity.
Qed.

Lemma binary32_of_Z_opp (z : Z) :
  binary32_of_Z (- z) = - binary32_of_Z z.
Proof.
  unfold binary32_of_Z. cbv zeta. rewrite Z.abs_opp, Z.sgn_opp.
  destruct (Z.abs z <? 2 ^ 24); [reflexivity|]. lia.
Qed.

(** Beyond 2^24 the rounded magnitude stays at or above 2^24, and
    rounding keeps the sign. *)
Lemma binary32_of_Z_large (z : Z) :
  2 ^ 24 <= Z.abs z ->
  exists v, 2 ^ 24 <= v /\ binary32_of_Z z = Z.sgn z * v.
Proof.
  intros Hz. unfold binary32_of_Z. cbv zeta.
  destruct (Z.ltb_spec (Z.abs z) (2 ^ 24)) as [Hlt|_]; [lia|].
  set (a := Z.abs z) in *.
  assert (Hlog : 24 <= Z.log2 a).
  { change 24 with (Z.log2 (2 ^ 24)). apply Z.log2_le_mono. exact Hz. }
  set (e := Z.log2 a - 23).
  assert (He : 1 <= e) by (unfold e; lia).
  assert (Hq : 2 <= 2 ^ e).
  { change 2 with (2 ^ 1) at 1. apply Z.pow_le_mono_r; lia. }
  assert (Ha : 2 ^ 23 * 2 ^ e <= a).
  { rewrite <- Z.pow_add_r by lia.
    replace (23 + e) with (Z.log2 a) by (unfold e; lia).
    apply Z.log2_spec. lia. }
  assert (Hm : 2 ^ 23 <= a / 2 ^ e).
  { apply Z.div_le_lower_bound; [lia|]. lia. }
  eexists. split; [|reflexivity].
  assert (Hmq : 2 ^ 24 <= a / 2 ^ e * 2 ^ e).
  { change (2 ^ 24) with (2 ^ 23 * 2). nia. }
  repeat match goal with
         | |- context [if ?c then _ else _] => destruct c
         end; nia.
Qed.

Lemma binary32_of_Z_sgn (z : Z) : Z.sgn (binary32_of_Z z) = Z.sgn z.
Proof.
  destruct (Z.le_gt_cases (2 ^ 24) (Z.abs z)) as [Hlarge | Hsmall].
  - destruct (binary32_of_Z_large z Hlarge) as (v & Hv & ->).
    assert (0 < v) by lia.
    destruct (Z.sgn_spec z) as [[? ->] | [[? ->] | [? ->]]];
      [rewrite Z.sgn_pos by lia | | rewrite Z.sgn_neg by lia]; reflexivity.
  - rewrite binary32_of_Z_exact by lia. reflexivity.
Qed.

Lemma binary32_of_Z_0 (z : Z) : binary32_of_Z z = 0 <-> z = 0.
Proof.
  rewrite <- (Z.sgn_null_iff (binary32_of_Z z)), binary32_of_Z_sgn.
  apply Z.sgn_null_iff.
Qed.

Lemma binary32_of_Z_pos (z : Z) : 0 < binary32_of_Z z <-> 0 < z.
Proof.
  rewrite <- (Z.sgn_pos_iff (binary32_of_Z z)), binary32_of_Z_sgn.
  apply Z.sgn_pos_iff.
Qed.

(** A value below 2^24 in magnitude compares with a converted [int] as
    with the [int] itself. *)
Lemma binary32_of_Z_lt_small (a z : Z) :
  Z.abs a < 2 ^ 24 ->
  (a < binary32_of_Z z <-> a < z) /\ (binary32_of_Z z < a <-> z < a).
Proof.
  intros Ha.
  destruct (Z.le_gt_cases (2 ^ 24) (Z.abs z)) as [Hlarge | Hsmall].
  - destruct (binary32_of_Z_large z Hlarge) as (v & Hv & ->).
    destruct (Z.sgn_spec z) as [[? ->] | [[? ->] | [? ->]]]; lia.
  - rewrite binary32_of_Z_exact by lia. tauto.
Qed.

Lemma int_to_float_exact (z : Z) :
  Z.abs z <= 2 ^ 24 -> int_to_float z = float_of_Z z.
Proof. intros H. unfold int_to_float. rewrite binary32_of_Z_exact by exact H. reflexivity. Qed.

Lemma int_to_float_0 : int_to_float 0 = 0%Qc.
Proof. apply Qc_is_canon. reflexivity. Qed.

Lemma float_sub_int (a b : Z) :
  float_sub (float_of_Z a) (float_of_Z b) = float_of_Z (binary32_of_Z (a - b)).
Proof.
  unfold float_sub. rewrite float_of_Z_sub, Qfloor_float_of_Z. reflexivity.
Qed.

(** The translator on a path of at least two nodes, in terms of the
    binary32 values of the coordinates of its first two nodes and of
    their differences. *)
Lemma get_direction_from_path_eq (p : path_t) (n0 n1 : MapNode_t)
    (rest : list MapNode_t) :
  path_nodes p = n0 :: n1 :: rest ->
  let dx := binary32_of_Z (binary32_of_Z (MapNode.x n1)
                           - binary32_of_Z (MapNode.x n0)) in
  let dy := binary32_of_Z (binary32_of_Z (MapNode.y n1)
                           - binary32_of_Z (MapNode.y n0)) in
  get_direction_from_path (Some p) =
    if Z.abs dy <? Z.abs dx
    then (if 0 <? dx then EAST else WEST)
    else (if 0 <? dy then SOUTH else NORTH).
Proof.
  intros Hp dx dy. unfold get_direction_from_path, path_num_nodes.
  rewrite Hp. simpl length.
  destruct (Z.ltb_spec (Z.of_nat (S (S (length rest)))) 2) as [Hlt|_]; [lia|].
  cbv zeta. unfold int_to_float.
  rewrite !float_sub_int, !float_of_Z_abs, !Qcltb_float_of_Z.
  rewrite <- float_of_Z_0, !Qcltb_float_of_Z. reflexivity.
Qed.

(** Up to 2^23 in magnitude the coordinates and their differences are
    binary32 values, and the translator decides on the integer
    displacement. *)
Lemma get_direction_from_path_exact (p : path_t) (n0 n1 : MapNode_t)
    (rest : list MapNode_t) :
  path_nodes p = n0 :: n1 :: rest ->
  Z.abs (MapNode.x n0) <= 2 ^ 23 -> Z.abs (MapNode.y n0) <= 2 ^ 23 ->
  Z.abs (MapNode.x n1) <= 2 ^ 23 -> Z.abs (MapNode.y n1) <= 2 ^ 23 ->
  let dx := MapNode.x n1 - MapNode.x n0 in
  let dy := MapNode.y n1 - MapNode.y n0 in
  get_direction_from_path (Some p) =
    if Z.abs dy <? Z.abs dx
    then (if 0 <? dx then EAST else WEST)
    else (if 0 <? dy then SOUTH else NORTH).
Proof.
  intros Hp Hx0 Hy0 Hx1 Hy1 dx dy.
  rewrite (get_direction_from_path_eq p n0 n1 rest Hp).
  change (2 ^ 23) with 8388608 in *.
  rewrite (binary32_of_Z_exact (MapNode.x n0)),
          (binary32_of_Z_exact (MapNode.y n0)),
          (binary32_of_Z_exact (MapNode.x n1)),
          (binary32_of_Z_exact (MapNode.y n1))
    by (change (2 ^ 24) with 16777216; lia).
  fold dx dy.
  rewrite (binary32_of_Z_exact dx), (binary32_of_Z_exact dy)
    by (unfold dx, dy; change (2 ^ 24) with 16777216; lia).
  reflexivity.
Qed.

(** C9 fails on the code beyond the precision of [float], into which the
    [int] coordinates are converted before they are subtracted.  From
    (16777216, 0) to (16777217, 0) the displacement is (1, 0): its
    horizontal component is the larger one and is positive, yet the answer
    is North and not East, both abscissas being converted to 16777216.
    From (-1, 0) to (16777216, 16777216), coordinates that [float]
    represents, the displacement is (16777217, 16777216), and the answer
    is South and not East: the difference 16777217 is rounded to
    16777216. *)
Theorem get_direction_from_path_beyond_float_precision :
  let node x y := {| MapNode.node_id := 1; MapNode.x := x; MapNode.y := y;
                     MapNode.area_id := 101 |} in
  let path a b := Some {| path_nodes := [a; b]; total_distance := 0%Qc;
                          total_risk := 0%Qc; timestamp := 0 |} in
  ((Z.abs (0 - 0) < Z.abs (16777217 - 16777216)) /\
   (0 < 16777217 - 16777216) /\
   (get_direction_from_path (path (node 16777216 0) (node 16777217 0))
    = NORTH)) /\
  ((Z.abs (16777216 - 0) < Z.abs (16777216 - (-1))) /\
   (0 < 16777216 - (-1)) /\
   (get_direction_from_path (path (node (-1) 0) (node 16777216 16777216))
    = SOUTH)).
Proof.
  cbv zeta. split; (split; [reflexivity|]); (split; [reflexivity|]).
  - vm_compute. reflexivity.
  - vm_compute. reflexivity.
Qed.

(** ** The planner *)

(** *** Array reads after array writes *)

Lemma prev_at_insert (l : list (option nat)) (j i : nat) (v : option nat) :
  prev_at (<[j := v]> l) i =
    if decide (i = j /\ (j < length l)%nat) then v else prev_at l i.
Proof.
  unfold prev_at. destruct (decide (i = j)) as [->|Hne].
  - destruct (decide (j < length l)%nat) as [Hlt|Hge].
    + rewrite list_lookup_insert_eq by exact Hlt.
      rewrite decide_True by auto. reflexivity.
    + rewrite list_insert_ge by lia. rewrite decide_False by tauto. reflexivity.
  - rewrite list_lookup_insert_ne by congruence.
    rewrite decide_False by tauto. reflexivity.
Qed.

Lemma flag_at_insert (l : list bool) (j i : nat) (v : bool) :
  flag_at (<[j := v]> l) i =
    if decide (i = j /\ (j < length l)%nat) then v else flag_at l i.
Proof.
  unfold flag_at. destruct (decide (i = j)) as [->|Hne].
  - destruct (decide (j < length l)%nat) as [Hlt|Hge].
    + rewrite list_lookup_insert_eq by exact Hlt.
      rewrite decide_True by auto. reflexivity.
    + rewrite list_insert_ge by lia. rewrite decide_False by tauto. reflexivity.
  - rewrite list_lookup_insert_ne by congruence.
    rewrite decide_False by tauto. reflexivity.
Qed.

Lemma prev_at_replicate (n i : nat) : prev_at (replicate n None) i = None.
Proof.
  unfold prev_at. destruct (replicate n None !! i) as [o|] eqn:H; [|reflexivity].
  apply lookup_replicate in H as [-> _]. reflexivity.
Qed.

Lemma flag_at_replicate (n i : nat) : flag_at (replicate n false) i = false.
Proof.
  unfold flag_at. destruct (replicate n false !! i) as [o|] eqn:H; [|reflexivity].
  apply lookup_replicate in H as [-> _]. reflexivity.
Qed.

(** *** Lookups in the graph *)

Lemma find_node_index_by_id_Some (g : graph_t) (id : Z) (i : nat) :
  find_node_index_by_id g id = Some i ->
  (i < length (nodes g))%nat /\ node_id (node_at g i) = id.
Proof.
  unfold find_node_index_by_id, node_at. intros H.
  apply fmap_Some in H as ([j n] & Hfind & ->). simpl.
  apply list_find_Some in Hfind as (Hlook & Hid & _).
  split; [eapply lookup_lt_Some; exact Hlook|].
  rewrite Hlook. exact Hid.
Qed.



(** *** The selection scan and the loop *)

Lemma fold_left_invariant {A B : Type} (f : A -> B -> A) (P : A -> Prop)
    (l : list B) (a : A) :
  P a -> (forall a b, In b l -> P a -> P (f a b)) -> P (fold_left f l a).
Proof.
  revert a. induction l as [|b l IH]; intros a Ha Hf; simpl; [exact Ha|].
  apply IH.
  - apply Hf; [left; reflexivity | exact Ha].
  - intros a' b' Hin. apply Hf. right. exact Hin.
Qed.

(** The selected node is open and is the index of a node. *)
Lemma lowest_f_Some (g : graph_t) (st : astar_state) (c : nat) :
  lowest_f g st = Some c ->
  flag_at (open_set st) c = true /\ (c < length (nodes g))%nat.
Proof.
  unfold lowest_f. intros H.
  pose proof (fold_left_invariant (lowest_f_step st)
    (fun acc => forall c, acc.2 = Some c ->
       flag_at (open_set st) c = true /\ (c < length (nodes g))%nat)
    (seq 0 (length (nodes g))) (FLT_MAX, None)) as Hinv.
  apply Hinv; [discriminate | | exact H].
  intros [m cur] i Hi Hacc c'. unfold lowest_f_step.
  destruct (flag_at (open_set st) i) eqn:Hopen; simpl; [|apply Hacc].
  destruct (Qcltb _ m); simpl; [|apply Hacc].
  intros [= <-]. apply in_seq in Hi. split; [exact Hopen | lia].
Qed.

Section PlannerFacts.

Variable sqrtf : Qc -> Qc.
Variable g : graph_t.
Variable v_idx : nat.

(** A property kept by each iteration holds of the state in which the
    goal is selected. *)
Lemma astar_loop_found (Inv : astar_state -> Prop) (fuel : nat)
    (st st' : astar_state) :
  (forall st c, Inv st -> lowest_f g st = Some c -> c <> v_idx ->
     Inv (explore sqrtf g v_idx c (close_node c st))) ->
  Inv st ->
  astar_loop sqrtf g v_idx fuel st = Found st' ->
  Inv st' /\ lowest_f g st' = Some v_idx.
Proof.
  intros Hstep. revert st. induction fuel as [|fuel IH]; intros st Hst Hrun;
    simpl in Hrun; [discriminate Hrun|].
  destruct (lowest_f g st) as [c|] eqn:Hsel; [|discriminate Hrun].
  destruct (Nat.eqb_spec c v_idx) as [->|Hne].
  - injection Hrun as <-. auto.
  - apply (IH _ (Hstep st c Hst Hsel Hne) Hrun).
Qed.

(** *** Parent links follow edges *)





End PlannerFacts.

(** *** The reconstructed route *)



(** What a successful call went through. *)
Lemma find_safe_path_Some (sqrtf : Qc -> Qc) (now : Z) (g : graph_t)
    (start_area_id end_area_id : Z) (p : path_t) :
  find_safe_path sqrtf now g start_area_id end_area_id = Some p ->
  exists start_node_id end_node_id u_idx v_idx st temp,
    resolve_area_ids g start_area_id end_area_id = (start_node_id, end_node_id) /\
    start_node_id <> -1 /\ end_node_id <> -1 /\
    find_node_index_by_id g start_node_id = Some u_idx /\
    find_node_index_by_id g end_node_id = Some v_idx /\
    astar_loop sqrtf g v_idx (S (length (nodes g)))
               (init_state sqrtf g u_idx v_idx) = Found st /\
    trace_back (prev_node_idx st) (Some v_idx) (Z.to_nat MAX_PATH_LENGTH)
      = Some temp /\
    p = build_path now g (rev temp).
Proof.
  unfold find_safe_path. intros H.
  destruct (resolve_area_ids g start_area_id end_area_id) as [sid eid].
  destruct (Z.eqb_spec sid (-1)) as [|Hs]; [discriminate H|].
  destruct (Z.eqb_spec eid (-1)) as [|He]; [discriminate H|].
  cbn [orb] in H.
  destruct (find_node_index_by_id g sid) as [u|] eqn:Hu; [|discriminate H].
  destruct (find_node_index_by_id g eid) as [v|] eqn:Hv; [|discriminate H].
  destruct (astar_loop _ _ _ _ _) as [st| |] eqn:Hrun; try discriminate H.
  destruct (trace_back _ _ _) as [temp|] eqn:Htb; [|discriminate H].
  injection H as <-. exists sid, eid, u, v, st, temp.
  repeat (split; [assumption || reflexivity|]). reflexivity.
Qed.

Lemma trace_back_head (prev : list (option nat)) (c : nat) (room : nat)
    (l : list nat) :
  trace_back prev (Some c) room = Some l -> exists l', l = c :: l'.
Proof.
  destruct room as [|room]; simpl; [discriminate|].
  intros H. apply fmap_Some in H as (l' & _ & ->). eauto.
Qed.

Lemma path_node_ids_build (now : Z) (g : graph_t) (idxs : list nat) :
  path_node_ids (build_path now g idxs)
  = map (fun j => node_id (node_at g j)) idxs.
Proof.
  unfold path_node_ids, build_path. simpl.
  induction idxs as [|i idxs IH]; simpl; [reflexivity|]. f_equal. exact IH.
Qed.





(** *** The parent links form a tree rooted at the start node *)

Lemma flag_at_insert_true (l : list bool) (j i : nat) :
  flag_at l i = true -> flag_at (<[j := true]> l) i = true.
Proof.
  intros H. rewrite flag_at_insert. destruct (decide _); [reflexivity | exact H].
Qed.

Lemma rooted_closed (u : nat) (prev : list (option nat)) (closed : list bool)
    (i : nat) :
  rooted u prev closed i -> flag_at closed i = true.
Proof. intros H. destruct H; assumption. Qed.

Lemma rooted_close (u : nat) (prev : list (option nat)) (closed : list bool)
    (c i : nat) :
  rooted u prev closed i -> rooted u prev (<[c := true]> closed) i.
Proof.
  induction 1 as [Hu | i p Hi Hp _ IH].
  - apply rooted_start. apply flag_at_insert_true. exact Hu.
  - apply (rooted_child _ _ _ i p); [apply flag_at_insert_true; exact Hi | exact Hp | exact IH].
Qed.

Lemma rooted_insert_prev (u : nat) (prev : list (option nat))
    (closed : list bool) (nb i : nat) (o : option nat) :
  flag_at closed nb = false ->
  rooted u prev closed i -> rooted u (<[nb := o]> prev) closed i.
Proof.
  intros Hnb. induction 1 as [Hu | i p Hi Hp _ IH].
  - apply rooted_start. exact Hu.
  - apply (rooted_child _ _ _ i p); [exact Hi | | exact IH].
    rewrite prev_at_insert. destruct (decide _) as [[-> _]|_]; [|exact Hp].
    congruence.
Qed.

Lemma rev_reverse {A : Type} (l : list A) : rev l = reverse l.
Proof. unfold reverse. apply rev_alt. Qed.

Lemma trace_back_None (prev : list (option nat)) (room : nat) :
  trace_back prev None room = Some [].
Proof. destruct room; reflexivity. Qed.

Lemma trace_back_rooted (u : nat) (prev : list (option nat))
    (closed : list bool) (i : nat) :
  prev_at prev u = None ->
  rooted u prev closed i ->
  forall room l, trace_back prev (Some i) room = Some l -> list.last l = Some u.
Proof.
  intros Hroot. induction 1 as [Hu | i p Hi Hp _ IH]; intros room l Htb.
  - destruct room as [|room]; simpl in Htb; [discriminate Htb|].
    rewrite Hroot, trace_back_None in Htb. injection Htb as <-. reflexivity.
  - destruct room as [|room]; simpl in Htb; [discriminate Htb|].
    rewrite Hp in Htb. apply fmap_Some in Htb as (l' & Hl' & ->).
    destruct (trace_back_head _ _ _ _ Hl') as [l'' ->].
    rewrite last_cons_cons. apply (IH room). exact Hl'.
Qed.

Section TreeFacts.

Variable sqrtf : Qc -> Qc.
Variable g : graph_t.
Variables u_idx v_idx : nat.

Lemma init_state_sets : sets_inv g (init_state sqrtf g u_idx v_idx).
Proof.
  split; simpl.
  - rewrite length_insert, length_replicate. reflexivity.
  - apply length_replicate.
  - intros i _. apply flag_at_replicate.
Qed.

Lemma init_state_tree : tree_inv g u_idx (init_state sqrtf g u_idx v_idx).
Proof.
  split; simpl.
  - apply length_replicate.
  - apply prev_at_replicate.
  - intros i c. rewrite prev_at_replicate. discriminate.
  - intros i. rewrite flag_at_insert.
    destruct (decide _) as [[-> _]|_]; [auto|].
    rewrite flag_at_replicate. discriminate.
  - right. split.
    + intros i. rewrite flag_at_insert.
      destruct (decide _) as [[-> _]|_]; [auto|].
      rewrite flag_at_replicate. discriminate.
    + intros i. apply prev_at_replicate.
Qed.

Lemma close_node_sets (c : nat) (st : astar_state) :
  (c < length (nodes g))%nat ->
  sets_inv g st -> sets_inv g (close_node c st).
Proof.
  intros Hc [Hol Hcl Hdis]. split; simpl.
  - rewrite length_insert. exact Hol.
  - rewrite length_insert. exact Hcl.
  - intros i. rewrite !flag_at_insert.
    destruct (decide _) as [_|Hn]; [discriminate|].
    rewrite decide_False by (rewrite Hcl; rewrite Hol in Hn; exact Hn).
    apply Hdis.
Qed.

Lemma relax_sets (cur : nat) (st : astar_state) (e : graph_edge_t) :
  sets_inv g st -> sets_inv g (relax sqrtf g v_idx cur st e).
Proof.
  intros Hst. unfold relax.
  destruct (_ =? _); [|exact Hst].
  destruct (find_node_index_by_id g (end_node e)) as [nb|]; [|exact Hst].
  destruct (flag_at (closed_set st) nb) eqn:Hnb; [exact Hst|]. simpl negb.
  destruct (_ || _); [|exact Hst].
  destruct Hst as [Hol Hcl Hdis]. split; simpl.
  - rewrite length_insert. exact Hol.
  - exact Hcl.
  - intros i. rewrite flag_at_insert.
    destruct (decide _) as [[-> _]|_]; [intros _; exact Hnb | apply Hdis].
Qed.

Lemma relax_closed_set (cur : nat) (st : astar_state) (e : graph_edge_t) :
  closed_set (relax sqrtf g v_idx cur st e) = closed_set st.
Proof.
  unfold relax.
  destruct (_ =? _); [|reflexivity].
  destruct (find_node_index_by_id g (end_node e)) as [nb|]; [|reflexivity].
  destruct (negb _); [|reflexivity].
  destruct (_ || _); reflexivity.
Qed.

Lemma explore_closed_set (cur : nat) (st : astar_state) :
  closed_set (explore sqrtf g v_idx cur st) = closed_set st.
Proof.
  unfold explore.
  apply (fold_left_invariant (relax sqrtf g v_idx cur)
           (fun st' => closed_set st' = closed_set st)); [reflexivity|].
  intros st' e _ H. rewrite relax_closed_set. exact H.
Qed.

Lemma explore_sets (cur : nat) (st : astar_state) :
  sets_inv g st -> sets_inv g (explore sqrtf g v_idx cur st).
Proof.
  intros Hst. unfold explore.
  apply (fold_left_invariant (relax sqrtf g v_idx cur) (sets_inv g));
    [exact Hst|].
  intros st' e _. apply relax_sets.
Qed.

Lemma step_sets (c : nat) (st : astar_state) :
  sets_inv g st -> lowest_f g st = Some c ->
  sets_inv g (explore sqrtf g v_idx c (close_node c st)).
Proof.
  intros Hst Hsel. apply lowest_f_Some in Hsel as [_ Hc].
  apply explore_sets, close_node_sets; assumption.
Qed.

End TreeFacts.

Section TreeStep.

Variable sqrtf : Qc -> Qc.
Variable g : graph_t.
Variables u_idx v_idx : nat.

(** Closing the selected node keeps the tree and roots the node. *)
Lemma close_node_tree (c : nat) (st : astar_state) :
  sets_inv g st -> tree_inv g u_idx st -> lowest_f g st = Some c ->
  tree_inv g u_idx (close_node c st) /\
  flag_at (closed_set (close_node c st)) u_idx = true /\
  rooted u_idx (prev_node_idx st) (closed_set (close_node c st)) c.
Proof.
  intros [Hol Hcl Hdis] [Hlen Hroot Hparent Hopen Hfirst] Hsel.
  apply lowest_f_Some in Hsel as [Hc_open Hc].
  assert (Hcc : flag_at (<[c := true]> (closed_set st)) c = true).
  { rewrite flag_at_insert. rewrite decide_True; [reflexivity|]. split; [reflexivity | lia]. }
  assert (Hcu : flag_at (<[c := true]> (closed_set st)) u_idx = true).
  { destruct Hfirst as [Hu | [Honly _]].
    - apply flag_at_insert_true. exact Hu.
    - rewrite <- (Honly c Hc_open). exact Hcc. }
  split; [|split].
  - split; simpl.
    + exact Hlen.
    + exact Hroot.
    + intros i p Hp. apply rooted_close. apply (Hparent i p Hp).
    + intros i. rewrite flag_at_insert.
      destruct (decide _) as [_|_]; [discriminate | apply Hopen].
    + left. exact Hcu.
  - exact Hcu.
  - simpl. destruct (Hopen c Hc_open) as [-> | [p Hp]].
    + apply rooted_start. exact Hcu.
    + apply (rooted_child _ _ _ c p); [exact Hcc | exact Hp|].
      apply rooted_close. apply (Hparent c p Hp).
Qed.

Lemma relax_tree (cur : nat) (st : astar_state) (e : graph_edge_t) :
  tree_inv g u_idx st /\ flag_at (closed_set st) u_idx = true /\
  rooted u_idx (prev_node_idx st) (closed_set st) cur ->
  let st' := relax sqrtf g v_idx cur st e in
  tree_inv g u_idx st' /\ flag_at (closed_set st') u_idx = true /\
  rooted u_idx (prev_node_idx st') (closed_set st') cur.
Proof.
  intros Hst st'. unfold st', relax.
  destruct (_ =? _); [|exact Hst].
  destruct (find_node_index_by_id g (end_node e)) as [nb|] eqn:Hfind; [|exact Hst].
  destruct (flag_at (closed_set st) nb) eqn:Hnb; [exact Hst|]. simpl negb.
  destruct (_ || _); [|exact Hst].
  destruct Hst as ([Hlen Hroot Hparent Hopen Hfirst] & Hcu & Hcur).
  apply find_node_index_by_id_Some in Hfind as [Hnb_lt _].
  assert (Hne : nb <> u_idx) by congruence.
  simpl. split; [|split].
  - split; simpl.
    + rewrite length_insert. exact Hlen.
    + rewrite prev_at_insert. destruct (decide _) as [[Heq _]|_]; [congruence | exact Hroot].
    + intros i p. rewrite prev_at_insert.
      destruct (decide _) as [_|_].
      * intros [= <-]. apply rooted_insert_prev; assumption.
      * intros Hp. apply rooted_insert_prev; [exact Hnb | apply (Hparent i p Hp)].
    + intros i Hi. rewrite prev_at_insert.
      destruct (decide (i = nb /\ (nb < length (prev_node_idx st))%nat)) as [_|Hn].
      * right. eauto.
      * rewrite flag_at_insert in Hi.
        destruct (decide _) as [[-> _]|_]; [|apply Hopen; exact Hi].
        exfalso. apply Hn. split; [reflexivity | lia].
    + left. exact Hcu.
  - exact Hcu.
  - apply rooted_insert_prev; assumption.
Qed.

Lemma step_tree (c : nat) (st : astar_state) :
  sets_inv g st /\ tree_inv g u_idx st -> lowest_f g st = Some c ->
  sets_inv g (explore sqrtf g v_idx c (close_node c st)) /\
  tree_inv g u_idx (explore sqrtf g v_idx c (close_node c st)).
Proof.
  intros [Hsets Htree] Hsel. split; [apply step_sets; assumption|].
  pose proof (close_node_tree c st Hsets Htree Hsel) as Hclosed.
  unfold explore.
  apply (fold_left_invariant (relax sqrtf g v_idx c)
           (fun st' => tree_inv g u_idx st' /\
                       flag_at (closed_set st') u_idx = true /\
                       rooted u_idx (prev_node_idx st') (closed_set st') c)).
  - exact Hclosed.
  - intros st' e _ Hst'. apply relax_tree. exact Hst'.
Qed.

(** In the state in which the goal is selected, the parent links lead
    from the goal index to the start index. *)
Lemma found_tree (fuel : nat) (st : astar_state) :
  astar_loop sqrtf g v_idx fuel (init_state sqrtf g u_idx v_idx) = Found st ->
  prev_at (prev_node_idx st) u_idx = None /\
  (v_idx = u_idx \/
   exists c, prev_at (prev_node_idx st) v_idx = Some c /\
             rooted u_idx (prev_node_idx st) (closed_set st) c).
Proof.
  intros Hrun.
  apply (astar_loop_found sqrtf g v_idx
           (fun st => sets_inv g st /\ tree_inv g u_idx st)) in Hrun
    as [[_ Htree] Hsel].
  - apply lowest_f_Some in Hsel as [Hopen _].
    destruct Htree as [_ Hroot Hparent Hop _]. split; [exact Hroot|].
    destruct (Hop v_idx Hopen) as [-> | [c Hc]]; [left; reflexivity|].
    right. exists c. split; [exact Hc | apply (Hparent v_idx c Hc)].
  - intros st0 c Hst0 Hsel _. apply step_tree; assumption.
  - split; [apply init_state_sets | apply init_state_tree].
Qed.

Lemma found_route_ends (fuel room : nat) (st : astar_state) (temp : list nat) :
  astar_loop sqrtf g v_idx fuel (init_state sqrtf g u_idx v_idx) = Found st ->
  trace_back (prev_node_idx st) (Some v_idx) room = Some temp ->
  head (rev temp) = Some u_idx /\ list.last (rev temp) = Some v_idx.
Proof.
  intros Hrun Htb. rewrite rev_reverse, head_reverse, last_reverse.
  destruct (found_tree fuel st Hrun) as [Hroot Hv].
  destruct (trace_back_head _ _ _ _ Htb) as [l' ->].
  split; [|reflexivity].
  destruct room as [|room]; simpl in Htb; [discriminate Htb|].
  apply fmap_Some in Htb as (l'' & Hl'' & [= <-]).
  destruct Hv as [-> | (c & Hc & Hrooted)].
  - rewrite Hroot, trace_back_None in Hl''. injection Hl'' as <-. reflexivity.
  - rewrite Hc in Hl''.
    destruct (trace_back_head _ _ _ _ Hl'') as [l3 ->].
    rewrite last_cons_cons.
    apply (trace_back_rooted u_idx _ _ c Hroot Hrooted room). exact Hl''.
Qed.

(** *** The loop ends within its iteration bound *)

Lemma unclosed_close_node (c : nat) (st : astar_state) :
  (c < length (closed_set st))%nat ->
  flag_at (closed_set st) c = false ->
  S (unclosed (close_node c st)) = unclosed st.
Proof.
  unfold unclosed, flag_at. simpl. intros Hc Hflag.
  destruct (closed_set st !! c) as [b|] eqn:Hlook.
  - simpl in Hflag. subst b.
    rewrite insert_take_drop by exact Hc.
    rewrite <- (take_drop_middle (closed_set st) c false Hlook) at 3.
    rewrite !list.filter_app, !length_app.
    rewrite (list.filter_cons_False _ true) by discriminate.
    rewrite (list.filter_cons_True _ false) by reflexivity.
    simpl. lia.
  - apply lookup_ge_None in Hlook. lia.
Qed.



End TreeStep.

(** *** Resolution of area ids *)

Lemma last_filter_snoc (l : list graph_node_t) (n : graph_node_t) (area : Z) :
  list.last (filter (fun m => area_id m = area) (l ++ [n])) =
    if area_id n =? area then Some n
    else list.last (filter (fun m => area_id m = area) l).
Proof.
  rewrite list.filter_app.
  destruct (Z.eqb_spec (area_id n) area) as [Heq|Hne].
  - rewrite (list.filter_cons_True _ n) by exact Heq.
    rewrite list.filter_nil. apply last_snoc.
  - rewrite (list.filter_cons_False _ n) by exact Hne.
    rewrite list.filter_nil, app_nil_r. reflexivity.
Qed.

Lemma resolve_area_ids_last (g : graph_t) (start_area_id end_area_id : Z) :
  resolve_area_ids g start_area_id end_area_id =
    (from_option node_id (-1) (last_node_with_area g start_area_id),
     from_option node_id (-1) (last_node_with_area g end_area_id)).
Proof.
  unfold resolve_area_ids, last_node_with_area.
  induction (nodes g) as [|n l IH] using rev_ind; [reflexivity|].
  rewrite fold_left_app, IH. simpl. rewrite !last_filter_snoc.
  destruct (area_id n =? start_area_id), (area_id n =? end_area_id);
    reflexivity.
Qed.

Lemma head_map_Some {A B : Type} (f : A -> B) (l : list A) (a : A) :
  head l = Some a -> head (map f l) = Some (f a).
Proof. destruct l; simpl; [discriminate | intros [= ->]; reflexivity]. Qed.

Lemma last_map_Some {A B : Type} (f : A -> B) (l : list A) (a : A) :
  list.last l = Some a -> list.last (map f l) = Some (f a).
Proof.
  intros H. apply last_Some in H as [l' ->].
  rewrite map_app. simpl. apply last_snoc.
Qed.

(** C2, as the code has it: each area id is resolved to the last node of
    the node array carrying it, and every path [find_safe_path] returns
    starts at the node with the id of the last node in the start area and
    ends at the node with the id of the last node in the end area. *)
Theorem area_id_resolves_to_last_node :
  (forall (g : graph_t) (start_area_id end_area_id : Z),
     resolve_area_ids g start_area_id end_area_id =
       (from_option node_id (-1) (last_node_with_area g start_area_id),
        from_option node_id (-1) (last_node_with_area g end_area_id))) /\
  (forall (sqrtf : Qc -> Qc) (now : Z) (g : graph_t)
          (start_area_id end_area_id : Z) (p : path_t),
     find_safe_path sqrtf now g start_area_id end_area_id = Some p ->
     exists ns ne,
       last_node_with_area g start_area_id = Some ns /\
       last_node_with_area g end_area_id = Some ne /\
       head (path_node_ids p) = Some (node_id ns) /\
       list.last (path_node_ids p) = Some (node_id ne)).
Proof.
  split; [apply resolve_area_ids_last|].
  intros sqrtf now g s e p H.
  apply find_safe_path_Some in H
    as (sid & eid & u & v & st & temp & Hres & Hs & He & Hu & Hv & Hrun & Htb & ->).
  rewrite resolve_area_ids_last in Hres. injection Hres as Hsid Heid.
  destruct (last_node_with_area g s) as [ns|]; [|simpl in Hsid; congruence].
  destruct (last_node_with_area g e) as [ne|]; [|simpl in Heid; congruence].
  simpl in Hsid, Heid. subst sid eid.
  exists ns, ne. split; [reflexivity|]. split; [reflexivity|].
  apply find_node_index_by_id_Some in Hu as [_ Hu], Hv as [_ Hv].
  destruct (found_route_ends sqrtf g u v _ _ st temp Hrun Htb) as [Hhead Hlast].
  rewrite path_node_ids_build. split.
  - rewrite <- Hu. apply (head_map_Some (fun j => node_id (node_at g j))). exact Hhead.
  - rewrite <- Hv. apply (last_map_Some (fun j => node_id (node_at g j))). exact Hlast.
Qed.

Lemma area_id_resolves_to_last_node_witness :
  exists p,
    find_safe_path sqrt_down 0 twin_map 101 102 = Some p /\
    exists ns, last_node_with_area twin_map 101 = Some ns /\
               head (path_node_ids p) = Some (node_id ns).
Proof.
  eexists. split.
  - vm_compute. reflexivity.
  - destruct (proj2 area_id_resolves_to_last_node sqrt_down 0 twin_map 101 102 _
                ltac:(vm_compute; reflexivity))
      as (ns & ne & Hns & _ & Hhead & _).
    exists ns. split; [exact Hns | exact Hhead].
Defined.

(** C2 fails as stated: in [twin_map] the first node of area 101 is
    node 1, yet the search from area 101 starts at node 5 and the search
    to area 101 ends at node 5, the last node of that area. *)
Lemma area_id_not_resolved_to_first_node :
  node_id <$> first_node_with_area twin_map 101 = Some 1 /\
  node_id <$> last_node_with_area twin_map 101 = Some 5 /\
  resolve_area_ids twin_map 101 102 = (5, 2) /\
  path_node_ids <$> find_safe_path sqrt_down 0 twin_map 101 102 = Some [5; 2] /\
  path_node_ids <$> find_safe_path sqrt_down 0 twin_map 102 101 = Some [2; 5].
Proof. vm_compute. repeat split. Qed.

(** *** The scenario of the test map *)

Lemma astar_loop_S (sqrtf : Qc -> Qc) (g : graph_t) (v_idx fuel : nat)
    (st : astar_state) :
  astar_loop sqrtf g v_idx (S fuel) st =
    match lowest_f g st with
    | None => NoPath
    | Some current_idx =>
        if (current_idx =? v_idx)%nat then Found st
        else astar_loop sqrtf g v_idx fuel
               (explore sqrtf g v_idx current_idx (close_node current_idx st))
    end.
Proof. reflexivity. Qed.

Lemma lowest_f_step_closed (st : astar_state) (l : list nat)
    (acc : Qc * option nat) :
  Forall (fun i => flag_at (open_set st) i = false) l ->
  fold_left (lowest_f_step st) l acc = acc.
Proof.
  revert acc. induction l as [|i l IH]; intros acc Hl; simpl; [reflexivity|].
  inversion Hl as [|? ? Hi Hl']; subst.
  rewrite IH by exact Hl'. unfold lowest_f_step. destruct acc as [m cur].
  rewrite Hi. reflexivity.
Qed.

(** The first iteration selects the start node, provided its heuristic
    value is below [FLT_MAX]. *)
Lemma lowest_f_init (sqrtf : Qc -> Qc) (g : graph_t) (u_idx v_idx : nat) :
  (u_idx < length (nodes g))%nat ->
  (heuristic sqrtf g u_idx v_idx < FLT_MAX)%Qc ->
  lowest_f g (init_state sqrtf g u_idx v_idx) = Some u_idx.
Proof.
  intros Hu Hh. unfold lowest_f.
  set (st := init_state sqrtf g u_idx v_idx).
  assert (Hopen : forall i, i <> u_idx -> flag_at (open_set st) i = false).
  { intros i Hi. unfold st. simpl. rewrite flag_at_insert.
    rewrite decide_False by tauto. apply flag_at_replicate. }
  replace (length (nodes g)) with (u_idx + S (length (nodes g) - S u_idx))%nat
    by lia.
  rewrite seq_app, fold_left_app. simpl seq. simpl fold_left.
  rewrite (lowest_f_step_closed st (seq 0 u_idx)).
  - rewrite lowest_f_step_closed.
    + unfold lowest_f_step, st. simpl.
      rewrite flag_at_insert, decide_True
        by (split; [reflexivity | rewrite length_replicate; lia]).
      unfold score_at.
      rewrite list_lookup_insert_eq by (rewrite length_replicate; lia).
      simpl. apply Qcltb_lt in Hh. rewrite Hh. reflexivity.
    + apply Forall_forall. intros i Hi. apply in_seq in Hi. apply Hopen. lia.
  - apply Forall_forall. intros i Hi. apply in_seq in Hi. apply Hopen. lia.
Qed.

(** The planner depends on [sqrt] only through the heuristic values. *)
Lemma find_safe_path_heuristic_ext (s1 s2 : Qc -> Qc) (now : Z) (g : graph_t)
    (start_area_id end_area_id : Z) :
  (forall i j, heuristic s1 g i j = heuristic s2 g i j) ->
  find_safe_path s1 now g start_area_id end_area_id
  = find_safe_path s2 now g start_area_id end_area_id.
Proof.
  intros Hh.
  assert (Hrelax : forall v c st e, relax s1 g v c st e = relax s2 g v c st e).
  { intros v c st e. unfold relax.
    destruct (_ =? _); [|reflexivity].
    destruct (find_node_index_by_id g (end_node e)) as [nb|]; [|reflexivity].
    destruct (negb _); [|reflexivity].
    destruct (_ || _); [|reflexivity].
    rewrite Hh. reflexivity. }
  assert (Hexplore : forall v c st, explore s1 g v c st = explore s2 g v c st).
  { intros v c st. unfold explore. generalize (edges g). intros es. revert st.
    induction es as [|e es IH]; intros st; simpl; [reflexivity|].
    rewrite Hrelax. apply IH. }
  assert (Hloop : forall v fuel st,
            astar_loop s1 g v fuel st = astar_loop s2 g v fuel st).
  { intros v fuel. induction fuel as [|fuel IH]; intros st; [reflexivity|].
    rewrite !astar_loop_S. destruct (lowest_f g st) as [c|]; [|reflexivity].
    destruct (c =? v)%nat; [reflexivity|]. rewrite Hexplore. apply IH. }
  assert (Hinit : forall u v, init_state s1 g u v = init_state s2 g u v).
  { intros u v. unfold init_state. rewrite Hh. reflexivity. }
  unfold find_safe_path.
  destruct (resolve_area_ids g start_area_id end_area_id) as [sid eid].
  destruct (_ || _); [reflexivity|].
  destruct (find_node_index_by_id g sid) as [u|]; [|reflexivity].
  destruct (find_node_index_by_id g eid) as [v|]; [|reflexivity].
  rewrite Hinit, Hloop. reflexivity.
Qed.

(** On a graph with the nodes of the test map, every heuristic value is
    the square root of 0, 100 or 200. *)
Lemma heuristic_square_map (sqrtf : Qc -> Qc) (g : graph_t) :
  nodes g = nodes square_map ->
  sqrtf 0%Qc = 0%Qc ->
  sqrtf (flt 100) = flt 10 ->
  forall i j,
    heuristic sqrtf g i j = heuristic (sqrt_table (sqrtf (flt 200))) g i j.
Proof.
  intros Hnodes H0 H100 i j. unfold heuristic, node_at. rewrite Hnodes.
  cbv zeta.
  destruct i as [|[|[|[|i]]]]; destruct j as [|[|[|[|j]]]];
    match goal with
    | |- sqrtf ?q = _ =>
        first
          [ replace q with 0%Qc
              by (apply Qc_is_canon; vm_compute; reflexivity);
            rewrite H0; reflexivity
          | replace q with (flt 100)
              by (apply Qc_is_canon; vm_compute; reflexivity);
            rewrite H100; reflexivity
          | replace q with (flt 200)
              by (apply Qc_is_canon; vm_compute; reflexivity);
            reflexivity ]
    end.
Qed.

Lemma scenario_run (s : Qc) (now : Z) (g : graph_t) :
  nodes g = nodes square_map ->
  (s < FLT_MAX)%Qc ->
  find_safe_path (sqrt_table s) now g 101 103 =
    match astar_loop (sqrt_table s) g 2 4
            (explore (sqrt_table s) g 2 0
               (close_node 0 (init_state (sqrt_table s) g 0 2))) with
    | Found st =>
        match trace_back (prev_node_idx st) (Some 2%nat)
                         (Z.to_nat MAX_PATH_LENGTH) with
        | Some temp => Some (build_path now g (rev temp))
        | None => None
        end
    | _ => None
    end.
Proof.
  intros Hnodes Hs. unfold find_safe_path.
  assert (Hres : resolve_area_ids g 101 103 = (1, 3)).
  { unfold resolve_area_ids. rewrite Hnodes. reflexivity. }
  assert (Hu : find_node_index_by_id g 1 = Some 0%nat).
  { unfold find_node_index_by_id. rewrite Hnodes. reflexivity. }
  assert (Hv : find_node_index_by_id g 3 = Some 2%nat).
  { unfold find_node_index_by_id. rewrite Hnodes. reflexivity. }
  rewrite Hres. cbv beta iota. change ((1 =? -1) || (3 =? -1)) with false.
  cbv iota. rewrite Hu, Hv. rewrite Hnodes at 1.
  change (S (length (nodes square_map))) with 5%nat.
  rewrite astar_loop_S. rewrite lowest_f_init.
  - change (0 =? 2)%nat with false. cbv iota.
    destruct (astar_loop _ _ _ _ _); reflexivity.
  - rewrite Hnodes. vm_compute. lia.
  - replace (heuristic (sqrt_table s) g 0 2) with s; [exact Hs|].
    unfold heuristic, node_at. rewrite Hnodes. reflexivity.
Qed.

(** What the neighbour loop writes: the tentative cost of a neighbour
    that is not closed is the cost of the current node plus the edge cost,
    and it is stored when the neighbour is not open yet or is improved. *)
Lemma relax_g_score (sqrtf : Qc -> Qc) (g : graph_t) (v_idx cur : nat)
    (st : astar_state) (e : graph_edge_t) (nb : nat) :
  start_node e = node_id (node_at g cur) ->
  find_node_index_by_id g (end_node e) = Some nb ->
  flag_at (closed_set st) nb = false ->
  (nb < length (g_score st))%nat ->
  let tentative := (score_at (g_score st) cur + edge_cost e)%Qc in
  score_at (g_score (relax sqrtf g v_idx cur st e)) nb =
    if negb (flag_at (open_set st) nb)
       || Qcltb tentative (score_at (g_score st) nb)
    then tentative else score_at (g_score st) nb.
Proof.
  intros Hs Hnb Hcl Hlen tentative. unfold relax.
  rewrite Hs, Z.eqb_refl, Hnb, Hcl. simpl negb. cbv iota.
  fold tentative. destruct (_ || _); [|reflexivity].
  simpl. unfold score_at. rewrite list_lookup_insert_eq by exact Hlen.
  reflexivity.
Qed.

(** C1: the search prices an edge at [distance * (1 + 10 * risk_factor)]:
    that is the edge cost, and the tentative cost the neighbour loop
    compares and stores is the cost of the current node plus it.
    On the test map (nodes 1-4 at the corners of a 10 x 10 square, areas
    101-104, perimeter edges of distance 10, diagonal edge 1 -> 3 of
    distance 14.14), for every [sqrt] that is exact on 0 and 100 and finite
    on 200: with all risk factors 0, [find_safe_path(101, 103)] returns
    the two-node path 1, 3 with total distance 14.14; with the risk factor
    of the diagonal edge set to 1.0 it returns the route 1, 2, 3. *)
Theorem square_map_scenario (sqrtf : Qc -> Qc) (now : Z) :
  sqrtf 0%Qc = 0%Qc ->
  sqrtf (flt 100) = flt 10 ->
  (sqrtf (flt 200) < FLT_MAX)%Qc ->
  (forall e, edge_cost e = (distance e * (1 + flt 10 * risk_factor e))%Qc) /\
  (forall g v_idx cur st e nb,
     start_node e = node_id (node_at g cur) ->
     find_node_index_by_id g (end_node e) = Some nb ->
     flag_at (closed_set st) nb = false ->
     (nb < length (g_score st))%nat ->
     let tentative :=
       (score_at (g_score st) cur
        + distance e * (1 + flt 10 * risk_factor e))%Qc in
     score_at (g_score (relax sqrtf g v_idx cur st e)) nb =
       if negb (flag_at (open_set st) nb)
          || Qcltb tentative (score_at (g_score st) nb)
       then tentative else score_at (g_score st) nb) /\
  (exists p,
     find_safe_path sqrtf now square_map 101 103 = Some p /\
     path_node_ids p = [1; 3] /\
     total_distance p = flt 14.14 /\ total_risk p = 0%Qc) /\
  (exists p,
     find_safe_path sqrtf now (with_edge_risk 5 (flt 1.0) square_map) 101 103
       = Some p /\
     path_node_ids p = [1; 2; 3] /\
     total_distance p = flt 20 /\ total_risk p = 0%Qc).
Proof.
  intros H0 H100 H200.
  assert (Hcost : forall e,
            edge_cost e = (distance e * (1 + flt 10 * risk_factor e))%Qc).
  { intros e. unfold edge_cost, risk_weight. rewrite flt_1.
    replace (flt 10.0) with (flt 10) by (apply Qc_is_canon; reflexivity).
    reflexivity. }
  split; [exact Hcost|]. split; [|split].
  - intros g v_idx cur st e nb Hs Hnb Hcl Hlen. rewrite <- Hcost.
    apply relax_g_score; assumption.
  - rewrite (find_safe_path_heuristic_ext sqrtf (sqrt_table (sqrtf (flt 200))))
      by (apply heuristic_square_map; [reflexivity | exact H0 | exact H100]).
    rewrite scenario_run by (reflexivity || exact H200).
    generalize (sqrtf (flt 200)). intros s.
    eexists. split; [vm_compute; reflexivity|].
    split; [reflexivity|]. split; apply Qc_is_canon; reflexivity.
  - rewrite (find_safe_path_heuristic_ext sqrtf (sqrt_table (sqrtf (flt 200))))
      by (apply heuristic_square_map; [reflexivity | exact H0 | exact H100]).
    rewrite scenario_run by (reflexivity || exact H200).
    generalize (sqrtf (flt 200)). intros s.
    eexists. split; [vm_compute; reflexivity|].
    split; [reflexivity|]. split; apply Qc_is_canon; reflexivity.
Qed.

Lemma square_map_scenario_witness :
  (exists p,
     find_safe_path sqrt_down 0 (with_edge_risk 5 (flt 1.0) square_map) 101 103
       = Some p /\
     path_node_ids p = [1; 2; 3]) /\
  score_at
    (g_score
       (relax sqrt_down (with_edge_risk 5 (flt 1.0) square_map) 2 0
          (close_node 0
             (init_state sqrt_down (with_edge_risk 5 (flt 1.0) square_map) 0 2))
          {| edge_id := 5; start_node := 1; end_node := 3;
             distance := flt 14.14; risk_factor := flt 1.0 |})) 2
  = flt 155.54.
Proof.
  destruct (square_map_scenario sqrt_down 0)
    as (_ & Hrelax & _ & p & Hp & Hids & _).
  - apply Qc_is_canon. reflexivity.
  - apply Qc_is_canon. reflexivity.
  - apply Qcltb_lt. vm_compute. reflexivity.
  - split; [exists p; split; [exact Hp | exact Hids]|].
    rewrite (Hrelax (with_edge_risk 5 (flt 1.0) square_map) 2%nat 0%nat _ _ 2%nat).
    + apply Qc_is_canon. vm_compute. reflexivity.
    + reflexivity.
    + reflexivity.
    + reflexivity.
    + vm_compute. lia.
Defined.

(** * Further properties *)

(** ** The graph store: inserts and lookups *)

Lemma node_ids_app (ns : list graph_node_t) (es : list graph_edge_t)
    (n : graph_node_t) :
  node_ids {| nodes := ns ++ [n]; edges := es |}
  = node_ids {| nodes := ns; edges := es |} ++ [node_id n].
Proof. unfold node_ids. simpl. rewrite map_app. reflexivity. Qed.

Lemma NoDup_snoc {A : Type} (l : list A) (a : A) :
  NoDup l -> ~ In a l -> NoDup (l ++ [a]).
Proof.
  intros Hl Ha. apply list.NoDup_app. split; [exact Hl|]. split.
  - intros b Hb Hin. apply list_elem_of_In in Hb.
    apply list_elem_of_In in Hin. simpl in Hin.
    destruct Hin as [<- | []]. contradiction.
  - apply list.NoDup_singleton.
Qed.

Lemma add_node_well_formed (id area : Z) (px py : Qc) (g : graph_t) :
  well_formed g -> well_formed (add_node id area px py g).2.
Proof.
  intros Hg.
  destruct (add_node_cases id area px py g) as [H | (Hfresh & Hroom & H)];
    rewrite H; simpl; [exact Hg|].
  destruct Hg as [Hn He Hend Hnc Hec]. split.
  - unfold node_ids in *. simpl. rewrite map_app. simpl.
    apply NoDup_snoc; assumption.
  - exact He.
  - simpl. eapply Forall_impl; [|exact Hend]. simpl.
    intros e [Hs Ht]. unfold node_ids in *. simpl. rewrite map_app.
    split; apply in_or_app; left; assumption.
  - unfold num_nodes in *. simpl. rewrite length_app. simpl. lia.
  - exact Hec.
Qed.

Lemma add_edge_well_formed (id s e : Z) (d : Qc) (g : graph_t) :
  well_formed g -> well_formed (add_edge id s e d g).2.
Proof.
  intros Hg.
  destruct (add_edge_cases id s e d g) as [H | (Hfresh & Hroom & Hs & He & H)];
    rewrite H; simpl; [exact Hg|].
  destruct Hg as [Hn Hei Hend Hnc Hec]. split.
  - exact Hn.
  - unfold edge_ids in *. simpl. rewrite map_app. simpl.
    apply NoDup_snoc; assumption.
  - simpl. apply Forall_app. split; [exact Hend|].
    constructor; [|constructor]. simpl. auto.
  - exact Hnc.
  - unfold num_edges in *. simpl. rewrite length_app. simpl. lia.
Qed.

Lemma update_edge_risks_ids (env_data : option EnvironmentalData_t)
    (g : graph_t) :
  nodes (update_edge_risks env_data g).2 = nodes g /\
  map edge_id (edges (update_edge_risks env_data g).2) = map edge_id (edges g) /\
  map start_node (edges (update_edge_risks env_data g).2)
    = map start_node (edges g) /\
  map end_node (edges (update_edge_risks env_data g).2)
    = map end_node (edges g) /\
  map distance (edges (update_edge_risks env_data g).2)
    = map distance (edges g).
Proof.
  destruct env_data as [env|]; simpl; [|auto].
  rewrite !map_map. simpl. auto.
Qed.

Lemma update_edge_risks_well_formed (env_data : option EnvironmentalData_t)
    (g : graph_t) :
  well_formed g -> well_formed (update_edge_risks env_data g).2.
Proof.
  intros [Hn He Hend Hnc Hec].
  destruct env_data as [env|]; simpl; [|split; assumption].
  split; simpl.
  - exact Hn.
  - unfold edge_ids in *. simpl. rewrite map_map. exact He.
  - apply Forall_forall. intros e Hin.
    apply in_map_iff in Hin as (e0 & <- & Hin0). simpl.
    rewrite Forall_forall in Hend. apply (Hend e0 Hin0).
  - exact Hnc.
  - unfold num_edges in *. simpl. rewrite length_map. exact Hec.
Qed.

Section LoadInvariant.

Variable scan_node : string -> option (Z * Z * Qc * Qc).
Variable scan_edge : string -> option (Z * Z * Z * Qc).

(** A property of graphs that both inserts keep is kept by a load. *)
Lemma load_map_data_keeps (P : graph_t -> Prop)
    (file : option (list string)) (g : graph_t) :
  (forall id area px py g, P g -> P (add_node id area px py g).2) ->
  (forall id s e d g, P g -> P (add_edge id s e d g).2) ->
  P g -> P (load_map_data scan_node scan_edge file g).2.
Proof.
  intros Hnode Hedge Hg.
  assert (Hrn : forall lines g, P g -> P (read_nodes scan_node lines g).1.2).
  { induction lines as [|line rest IH]; intros g0 Hg0; simpl; [exact Hg0|].
    destruct (has_tag "EDGES" line); [exact Hg0|].
    destruct (scan_node line) as [[[[id area] px] py]|]; [|apply IH; exact Hg0].
    pose proof (Hnode id area px py g0 Hg0) as Hn.
    destruct (add_node id area px py g0) as [rc g1]. simpl in Hn.
    destruct (negb (rc =? 0)); [exact Hn | apply IH; exact Hn]. }
  assert (Hre : forall lines g, P g -> P (read_edges scan_edge lines g).2).
  { induction lines as [|line rest IH]; intros g0 Hg0; simpl; [exact Hg0|].
    destruct (scan_edge line) as [[[[id s] e] d]|]; [|apply IH; exact Hg0].
    pose proof (Hedge id s e d g0 Hg0) as Hn.
    destruct (add_edge id s e d g0) as [rc g1]. simpl in Hn.
    destruct (negb (rc =? 0)); [exact Hn | apply IH; exact Hn]. }
  unfold load_map_data.
  destruct file as [[|header rest]|]; try exact Hg.
  destruct (negb (has_tag "NODES" header)); [exact Hg|].
  pose proof (Hrn rest g Hg) as H1.
  destruct (read_nodes scan_node rest g) as [[rc g1] rest1]. simpl in H1.
  destruct (negb (rc =? 0)); [exact H1 | apply Hre; exact H1].
Qed.

(** X1: after every sequence of operations on the initialised module the
    graph satisfies the invariant of the data model: node ids are pairwise
    distinct, edge ids are pairwise distinct, both endpoints of every edge
    are node ids of the graph, and there are at most [MAX_NODES] nodes and
    [MAX_EDGES] edges. *)
Theorem reachable_graph_well_formed (ops : list graph_op) :
  well_formed (run_ops scan_node scan_edge ops).
Proof.
  unfold run_ops.
  assert (Hgen : forall g, well_formed g ->
            well_formed (fold_left (apply_op scan_node scan_edge) ops g)).
  { induction ops as [|op ops' IH]; intros g Hg; simpl; [exact Hg|].
    apply IH. destruct op; simpl.
    - split; simpl; try constructor; unfold MAX_NODES, MAX_EDGES,
        num_nodes, num_edges; simpl; lia.
    - split; simpl; try constructor; unfold MAX_NODES, MAX_EDGES,
        num_nodes, num_edges; simpl; lia.
    - apply add_node_well_formed. exact Hg.
    - apply add_edge_well_formed. exact Hg.
    - apply update_edge_risks_well_formed. exact Hg.
    - apply load_map_data_keeps;
        [intros; apply add_node_well_formed; assumption
        |intros; apply add_edge_well_formed; assumption | exact Hg]. }
  apply Hgen. split; simpl; try constructor;
    unfold MAX_NODES, MAX_EDGES, num_nodes, num_edges; simpl; lia.
Qed.

End LoadInvariant.

Lemma find_node_index_by_id_None (g : graph_t) (id : Z) :
  find_node_index_by_id g id = None <-> ~ In id (node_ids g).
Proof.
  unfold find_node_index_by_id, node_ids. rewrite fmap_None, list_find_None.
  rewrite Forall_forall. split.
  - intros H Hin. apply in_map_iff in Hin as (n & Hid & Hn).
    apply (H n Hn Hid).
  - intros H n Hn Hid. apply H. apply in_map_iff. exists n.
    split; [exact Hid | exact Hn].
Qed.

Lemma find_node_index_by_id_snoc (ns : list graph_node_t)
    (es es' : list graph_edge_t) (n : graph_node_t) (id : Z) :
  find_node_index_by_id {| nodes := ns ++ [n]; edges := es |} id =
    match find_node_index_by_id {| nodes := ns; edges := es' |} id with
    | Some i => Some i
    | None => if decide (node_id n = id) then Some (length ns) else None
    end.
Proof.
  unfold find_node_index_by_id. simpl.
  destruct (list_find (fun m => node_id m = id) ns) as [[i m]|] eqn:Hfind; simpl.
  - rewrite (list_find_app_l _ _ _ _ _ Hfind). reflexivity.
  - rewrite (list_find_app_r _ _ _ Hfind). simpl.
    destruct (decide (node_id n = id)); reflexivity.
Qed.

(** X2: [add_node] returns 0 exactly when the id is new and the node
    array has room.  The node is then stored at index [num_nodes]: a
    lookup of its id yields that index and the stored fields, the index of
    every other id is as before, and the edges are untouched. *)
Theorem add_node_then_lookup (id area : Z) (px py : Qc) (g : graph_t) :
  ((add_node id area px py g).1 = 0 <->
   ~ In id (node_ids g) /\ num_nodes g < MAX_NODES) /\
  ((add_node id area px py g).1 = 0 ->
   let g' := (add_node id area px py g).2 in
   find_node_index_by_id g' id = Some (length (nodes g)) /\
   node_at g' (length (nodes g))
     = {| node_id := id; area_id := area; x := px; y := py |} /\
   (forall id', id' <> id ->
      find_node_index_by_id g' id' = find_node_index_by_id g id') /\
   (forall i, (i < length (nodes g))%nat -> node_at g' i = node_at g i) /\
   num_nodes g' = num_nodes g + 1 /\
   edges g' = edges g).
Proof.
  destruct (add_node_cases id area px py g) as [H | (Hfresh & Hroom & H)];
    rewrite H; simpl.
  - split; [|discriminate]. split; [discriminate|].
    intros [Hfresh Hroom]. exfalso. revert H. unfold add_node.
    apply has_node_false in Hfresh. rewrite Hfresh.
    destruct (Z.leb_spec MAX_NODES (num_nodes g)); [lia | discriminate].
  - split; [tauto|]. intros _.
    destruct g as [ns es]. simpl in *.
    assert (Hnone : find_node_index_by_id {| nodes := ns; edges := es |} id = None)
      by (apply find_node_index_by_id_None; exact Hfresh).
    split; [|split; [|split; [|split; [|split]]]].
    + rewrite (find_node_index_by_id_snoc ns es es), Hnone. simpl.
      rewrite decide_True by reflexivity. reflexivity.
    + unfold node_at. simpl. rewrite lookup_app_r by lia.
      rewrite Nat.sub_diag. reflexivity.
    + intros id' Hne. rewrite (find_node_index_by_id_snoc ns es es). simpl.
      destruct (find_node_index_by_id _ id'); [reflexivity|].
      rewrite decide_False by congruence. reflexivity.
    + intros i Hi. unfold node_at. simpl. rewrite lookup_app_l by exact Hi.
      reflexivity.
    + unfold num_nodes. simpl. rewrite length_app. simpl. lia.
    + reflexivity.
Qed.

Lemma add_node_then_lookup_witness :
  find_node_index_by_id (add_node 7 107 (flt 3) (flt 4) square_map).2 7
  = Some 4%nat.
Proof.
  apply (proj2 (add_node_then_lookup 7 107 (flt 3) (flt 4) square_map)).
  vm_compute. reflexivity.
Defined.

Lemma find_edge_snoc (ns : list graph_node_t) (es : list graph_edge_t)
    (e : graph_edge_t) (a b : Z) :
  find_edge {| nodes := ns; edges := es ++ [e] |} a b =
    match find_edge {| nodes := ns; edges := es |} a b with
    | Some old => Some old
    | None =>
        if (start_node e =? a) && (end_node e =? b) then Some e else None
    end.
Proof.
  unfold find_edge. simpl. induction es as [|e0 es IH]; simpl.
  - destruct (_ && _); reflexivity.
  - destruct ((start_node e0 =? a) && (end_node e0 =? b)); [reflexivity | exact IH].
Qed.

(** X3: [add_edge] returns 0 exactly when the edge id is new, the edge
    array has room and both endpoints are node ids of the graph.  The edge
    is then appended with risk factor 0 and the nodes are untouched; the
    edge found from [s] to [e] is the one found before when there was one
    (an earlier parallel edge keeps precedence), and the new edge
    otherwise. *)
Theorem add_edge_then_lookup (id s e : Z) (d : Qc) (g : graph_t) :
  ((add_edge id s e d g).1 = 0 <->
   ~ In id (edge_ids g) /\ num_edges g < MAX_EDGES /\
   In s (node_ids g) /\ In e (node_ids g)) /\
  ((add_edge id s e d g).1 = 0 ->
   let g' := (add_edge id s e d g).2 in
   let new := {| edge_id := id; start_node := s; end_node := e;
                 distance := d; risk_factor := 0%Qc |} in
   edges g' = edges g ++ [new] /\
   nodes g' = nodes g /\
   num_edges g' = num_edges g + 1 /\
   find_edge g' s e =
     match find_edge g s e with Some old => Some old | None => Some new end /\
   (forall a b, (a, b) <> (s, e) -> find_edge g' a b = find_edge g a b)).
Proof.
  destruct (add_edge_cases id s e d g) as [H | (Hfresh & Hroom & Hs & He & H)];
    rewrite H; simpl.
  - split; [|discriminate]. split; [discriminate|].
    intros (Hfresh & Hroom & Hs & He). exfalso. revert H. unfold add_edge.
    assert (Hid : has_edge g id = false).
    { destruct (has_edge g id) eqn:Hh; [|reflexivity].
      apply has_edge_spec in Hh. contradiction. }
    rewrite Hid.
    destruct (Z.leb_spec MAX_EDGES (num_edges g)); [lia|].
    apply has_node_spec in Hs, He. rewrite Hs, He. discriminate.
  - split; [tauto|]. intros _. destruct g as [ns es]. simpl in *.
    split; [reflexivity|]. split; [reflexivity|]. split; [|split].
    + unfold num_edges. simpl. rewrite length_app. simpl. lia.
    + rewrite find_edge_snoc. simpl. rewrite !Z.eqb_refl. reflexivity.
    + intros a b Hne. rewrite find_edge_snoc. simpl.
      destruct (find_edge _ a b); [reflexivity|].
      destruct (Z.eqb_spec s a), (Z.eqb_spec e b); simpl; try reflexivity.
      subst. contradiction.
Qed.

Lemma add_edge_then_lookup_witness :
  find_edge (add_edge 6 1 3 (flt 99) square_map).2 1 3
  = find_edge square_map 1 3.
Proof.
  rewrite (proj1 (proj2 (proj2 (proj2
    (proj2 (add_edge_then_lookup 6 1 3 (flt 99) square_map)
       ltac:(vm_compute; reflexivity)))))).
  vm_compute. reflexivity.
Defined.

(** ** The risk update *)

(** The risk a reading assigns does not depend on the graph or on the
    edge, and depends on the reading through its two gas values only. *)
Lemma edge_risk_of_nodes (g g' : graph_t) (env : EnvironmentalData_t)
    (e e' : graph_edge_t) :
  edge_risk_of g env e = edge_risk_of g' env e'.
Proof. unfold edge_risk_of. cbv zeta. reflexivity. Qed.

Lemma edge_risk_of_gas (g : graph_t) (env env' : EnvironmentalData_t)
    (e : graph_edge_t) :
  tvoc_ppb env = tvoc_ppb env' -> eco2_ppm env = eco2_ppm env' ->
  edge_risk_of g env e = edge_risk_of g env' e.
Proof.
  intros Ht He. unfold edge_risk_of. cbv zeta. rewrite Ht, He. reflexivity.
Qed.

(** X4: [update_edge_risks] with a reading returns 0, keeps the nodes and
    every edge's id, endpoints and distance, and is idempotent: applying
    the same reading a second time leaves the graph as the first
    application made it.  With a NULL reading it returns -1 and changes
    nothing. *)
Theorem update_edge_risks_idempotent (env : EnvironmentalData_t) (g : graph_t) :
  let r1 := update_edge_risks (Some env) g in
  r1.1 = 0 /\
  update_edge_risks (Some env) r1.2 = r1 /\
  nodes r1.2 = nodes g /\
  map (fun e => (edge_id e, start_node e, end_node e, distance e)) (edges r1.2)
    = map (fun e => (edge_id e, start_node e, end_node e, distance e)) (edges g) /\
  update_edge_risks None g = (-1, g).
Proof.
  simpl. split; [reflexivity|]. split; [|split; [reflexivity|split]].
  - unfold update_edge_risks. simpl. f_equal. f_equal.
    rewrite map_map. apply map_ext. intros e. unfold set_risk. simpl.
    apply f_equal. apply edge_risk_of_nodes.
  - rewrite map_map. apply map_ext. intros e. reflexivity.
  - reflexivity.
Qed.

Lemma flt_2000_pos : (0 < / flt 2000.0)%Qc.
Proof. apply Qcltb_lt. vm_compute. reflexivity. Qed.

Lemma scaled_lt (a b : Z) :
  (float_of_Z a / flt 2000.0 < float_of_Z b / flt 2000.0)%Qc <-> a < b.
Proof.
  unfold Qcdiv. split.
  - intros H. apply float_of_Z_lt. apply Qcnot_le_lt. intros Hle.
    apply (Qclt_not_le _ _ H).
    apply Qcmult_le_compat_r; [exact Hle | apply Qclt_le_weak, flt_2000_pos].
  - intros H. apply Qcmult_lt_compat_r; [apply flt_2000_pos|].
    apply float_of_Z_lt. exact H.
Qed.

Lemma scaled_0 : (float_of_Z 0 / flt 2000.0)%Qc = 0%Qc.
Proof. apply Qc_is_canon. reflexivity. Qed.

Lemma scaled_2000 : (float_of_Z 2000 / flt 2000.0)%Qc = 1%Qc.
Proof. apply Qc_is_canon. reflexivity. Qed.

(** The gas sums between the two clamps are binary32 values. *)
Lemma int_to_float_gas_sum (z : Z) :
  0 <= z <= 2000 -> int_to_float z = float_of_Z z.
Proof.
  intros Hz. apply int_to_float_exact.
  change (2 ^ 24) with 16777216. lia.
Qed.

(** The clamped risk as a function of the sum of the two gas values. *)
Lemma edge_risk_of_sum (g : graph_t) (env : EnvironmentalData_t)
    (e : graph_edge_t) :
  edge_risk_of g env e = clamped_risk (tvoc_ppb env + eco2_ppm env).
Proof.
  unfold edge_risk_of, clamped_risk. cbv zeta.
  set (z := tvoc_ppb env + eco2_ppm env).
  set (s := (int_to_float z / flt 2000.0)%Qc).
  assert (Hss : Qcltb s s = false) by (apply Qcltb_ge, Qcle_refl).
  rewrite Hss, flt_0, flt_1.
  assert (Hhi : 2000 < binary32_of_Z z <-> 2000 < z).
  { apply (binary32_of_Z_lt_small 2000 z). reflexivity. }
  assert (Hlo : binary32_of_Z z < 0 <-> z < 0).
  { apply (binary32_of_Z_lt_small 0 z). reflexivity. }
  assert (H1 : Qcltb 1 s = (2000 <? z)).
  { destruct (Z.ltb_spec 2000 z) as [Hlt|Hge].
    - apply Qcltb_lt. rewrite <- scaled_2000. apply scaled_lt.
      apply Hhi. exact Hlt.
    - apply Qcltb_ge. apply Qcnot_lt_le. rewrite <- scaled_2000.
      unfold s, int_to_float. rewrite scaled_lt. lia. }
  assert (H0 : Qcltb s 0 = (z <? 0)).
  { destruct (Z.ltb_spec z 0) as [Hlt|Hge].
    - apply Qcltb_lt. rewrite <- scaled_0. apply scaled_lt.
      apply Hlo. exact Hlt.
    - apply Qcltb_ge. apply Qcnot_lt_le. rewrite <- scaled_0.
      unfold s, int_to_float. rewrite scaled_lt. lia. }
  rewrite H1. destruct (2000 <? z); [reflexivity|].
  rewrite H0. reflexivity.
Qed.

Lemma scaled_le (a b : Z) :
  a <= b -> (float_of_Z a / flt 2000.0 <= float_of_Z b / flt 2000.0)%Qc.
Proof. intros H. apply Qcnot_lt_le. rewrite scaled_lt. lia. Qed.

Lemma scaled_inj (a b : Z) :
  (float_of_Z a / flt 2000.0)%Qc = (float_of_Z b / flt 2000.0)%Qc -> a = b.
Proof.
  intros H. destruct (Z.lt_total a b) as [Hlt | [Heq | Hgt]]; [|exact Heq|].
  - apply scaled_lt in Hlt. rewrite H in Hlt.
    exfalso. apply (Qclt_not_le _ _ Hlt), Qcle_refl.
  - apply scaled_lt in Hgt. rewrite H in Hgt.
    exfalso. apply (Qclt_not_le _ _ Hgt), Qcle_refl.
Qed.

Lemma clamped_risk_0 (z : Z) : clamped_risk z = 0%Qc <-> z <= 0.
Proof.
  unfold clamped_risk.
  destruct (Z.ltb_spec 2000 z) as [Hhi|Hhi];
    [split; [intros H; discriminate H | lia]|].
  destruct (Z.ltb_spec z 0) as [Hlo|Hlo]; [split; [lia | reflexivity]|].
  rewrite int_to_float_gas_sum by lia.
  rewrite <- scaled_0. split.
  - intros H. apply scaled_inj in H. lia.
  - intros H. f_equal. f_equal. lia.
Qed.

Lemma clamped_risk_1 (z : Z) : clamped_risk z = 1%Qc <-> 2000 <= z.
Proof.
  unfold clamped_risk.
  destruct (Z.ltb_spec 2000 z) as [Hhi|Hhi]; [split; [lia | reflexivity]|].
  destruct (Z.ltb_spec z 0) as [Hlo|Hlo];
    [split; [intros H; discriminate H | lia]|].
  rewrite int_to_float_gas_sum by lia.
  rewrite <- scaled_2000. split.
  - intros H. apply scaled_inj in H. lia.
  - intros H. f_equal. f_equal. lia.
Qed.

Lemma clamped_risk_mono (z z' : Z) :
  z <= z' -> (clamped_risk z <= clamped_risk z')%Qc.
Proof.
  intros Hle. unfold clamped_risk.
  destruct (Z.ltb_spec 2000 z) as [Hz|Hz],
           (Z.ltb_spec 2000 z') as [Hz'|Hz']; try lia.
  - apply Qcle_refl.
  - destruct (Z.ltb_spec z 0) as [Hlo|Hlo]; [apply Qc_0_le_1|].
    rewrite int_to_float_gas_sum by lia.
    rewrite <- scaled_2000. apply scaled_le. lia.
  - destruct (Z.ltb_spec z 0) as [Hlo|Hlo],
             (Z.ltb_spec z' 0) as [Hlo'|Hlo']; try lia.
    + apply Qcle_refl.
    + rewrite int_to_float_gas_sum by lia.
      rewrite <- scaled_0. apply scaled_le. lia.
    + rewrite !int_to_float_gas_sum by lia. apply scaled_le. exact Hle.
Qed.

(** X5: one reading gives every edge the same risk factor, which depends
    on the reading only through the sum [tvoc_ppb + eco2_ppm]: it is 0
    exactly when the sum is at most 0, it is 1 exactly when the sum is at
    least 2000, and it never decreases when the sum grows. *)
Theorem risk_is_clamped_gas_sum (env : EnvironmentalData_t) (g : graph_t) :
  let z := tvoc_ppb env + eco2_ppm env in
  let g1 := (update_edge_risks (Some env) g).2 in
  (forall e1 e2, In e1 (edges g1) -> In e2 (edges g1) ->
     risk_factor e1 = risk_factor e2) /\
  (forall e, In e (edges g1) ->
     (risk_factor e = 0%Qc <-> z <= 0) /\
     (risk_factor e = 1%Qc <-> 2000 <= z)) /\
  (forall env' g' e e',
     In e (edges g1) ->
     In e' (edges (update_edge_risks (Some env') g').2) ->
     z <= tvoc_ppb env' + eco2_ppm env' ->
     (risk_factor e <= risk_factor e')%Qc).
Proof.
  intros z g1.
  assert (Hval : forall env0 g0 e0,
            In e0 (edges (update_edge_risks (Some env0) g0).2) ->
            risk_factor e0 = clamped_risk (tvoc_ppb env0 + eco2_ppm env0)).
  { intros env0 g0 e0 Hin. simpl in Hin.
    apply in_map_iff in Hin as (e00 & <- & _). simpl.
    apply edge_risk_of_sum. }
  split; [|split].
  - intros e1 e2 H1 H2. rewrite (Hval env g e1 H1), (Hval env g e2 H2).
    reflexivity.
  - intros e He. rewrite (Hval env g e He). fold z.
    split; [apply clamped_risk_0 | apply clamped_risk_1].
  - intros env' g' e e' He He' Hle.
    rewrite (Hval env g e He), (Hval env' g' e' He').
    apply clamped_risk_mono. exact Hle.
Qed.

Lemma risk_is_clamped_gas_sum_witness :
  Forall (fun e => risk_factor e <> 0%Qc /\ risk_factor e <> 1%Qc)
    (edges (update_edge_risks
              (Some {| tvoc_ppb := 500; eco2_ppm := 800;
                       mq2_voltage := flt 1.5;
                       mq2_concentration := flt 100.0 |}) square_map).2).
Proof.
  apply Forall_forall. intros e He.
  destruct (proj1 (proj2 (risk_is_clamped_gas_sum
              {| tvoc_ppb := 500; eco2_ppm := 800; mq2_voltage := flt 1.5;
                 mq2_concentration := flt 100.0 |} square_map)) e He)
    as [H0 H1].
  simpl in H0, H1. split; intros H; [apply H0 in H | apply H1 in H]; lia.
Defined.

(** ** What a successful load stores *)

Section LoadContent.

Variable scan_node : string -> option (Z * Z * Qc * Qc).
Variable scan_edge : string -> option (Z * Z * Z * Qc).

Lemma read_nodes_content (lines : list string) (g g1 : graph_t)
    (rest1 : list string) :
  read_nodes scan_node lines g = (0, g1, rest1) ->
  nodes g1 = nodes g ++ map node_of_fields (omap scan_node (node_section lines)) /\
  edges g1 = edges g /\
  rest1 = edge_section lines.
Proof.
  revert g. induction lines as [|line rest IH]; intros g Hread; simpl in *.
  - injection Hread as <- <-. rewrite app_nil_r. auto.
  - destruct (has_tag "EDGES" line).
    + injection Hread as <- <-. simpl. rewrite app_nil_r. auto.
    + simpl. destruct (scan_node line) as [[[[id area] px] py]|]; [|apply IH; exact Hread].
      destruct (add_node_cases id area px py g) as [H | (_ & _ & H)];
        rewrite H in Hread; simpl in Hread; [discriminate Hread|].
      apply IH in Hread as (Hn & He & Hr). simpl in Hn, He.
      rewrite Hn, <- app_assoc. auto.
Qed.

Lemma read_edges_content (lines : list string) (g g2 : graph_t) :
  read_edges scan_edge lines g = (0, g2) ->
  nodes g2 = nodes g /\
  edges g2 = edges g ++ map edge_of_fields (omap scan_edge lines).
Proof.
  revert g. induction lines as [|line rest IH]; intros g Hread; simpl in *.
  - injection Hread as <-. rewrite app_nil_r. auto.
  - destruct (scan_edge line) as [[[[id s] e] d]|]; [|apply IH; exact Hread].
    destruct (add_edge_cases id s e d g) as [H | (_ & _ & _ & _ & H)];
      rewrite H in Hread; simpl in Hread; [discriminate Hread|].
    apply IH in Hread as (Hn & He). simpl in Hn, He.
    rewrite He, <- app_assoc. auto.
Qed.

Lemma load_map_data_content (header : string) (rest : list string)
    (g g' : graph_t) :
  load_map_data scan_node scan_edge (Some (header :: rest)) g = (0, g') ->
  has_tag "NODES" header = true /\
  nodes g' = nodes g ++
    map node_of_fields (omap scan_node (node_section rest)) /\
  edges g' = edges g ++
    map edge_of_fields (omap scan_edge (edge_section rest)).
Proof.
  unfold load_map_data. intros Hload.
  destruct (has_tag "NODES" header) eqn:Htag; [|discriminate Hload].
  simpl in Hload. split; [reflexivity|].
  destruct (read_nodes scan_node rest g) as [[rc g1] rest1] eqn:Hnodes.
  destruct (Z.eqb_spec rc 0) as [->|Hne]; simpl in Hload; [|discriminate Hload].
  apply read_nodes_content in Hnodes as (Hn & He & ->).
  apply read_edges_content in Hload as (Hn2 & He2).
  rewrite Hn2, He2, Hn, He. auto.
Qed.

(** X6: when [load_map_data] returns 0, the file has a [NODES] header, and
    the graph has gained, in file order, one node for every line before
    the [EDGES] line that scans as a node line and one edge, with risk
    factor 0, for every line after it that scans as an edge line; nothing
    else has changed. *)
Theorem successful_load_stores_file (file : option (list string))
    (g g' : graph_t) :
  load_map_data scan_node scan_edge file g = (0, g') ->
  exists header rest,
    file = Some (header :: rest) /\
    has_tag "NODES" header = true /\
    nodes g' = nodes g ++
      map node_of_fields (omap scan_node (node_section rest)) /\
    edges g' = edges g ++
      map edge_of_fields (omap scan_edge (edge_section rest)).
Proof.
  intros Hload.
  destruct file as [[|header rest]|]; try discriminate Hload.
  exists header, rest. split; [reflexivity|].
  apply load_map_data_content. exact Hload.
Qed.

Lemma node_section_no_tag (lines : list string) :
  Forall (fun l => has_tag "EDGES" l = false) lines ->
  node_section lines = lines /\ edge_section lines = [].
Proof.
  induction 1 as [|line rest Hl _ [IH1 IH2]]; simpl; [auto|].
  rewrite Hl, IH1, IH2. auto.
Qed.

(** X7: a file without an [EDGES] line never yields an edge: whatever the
    return code, the edge array is as before the load, and when the load
    returns 0 every line after the header that scans as a node line, edge
    lines of the intended format included, has been inserted as a node. *)
Theorem load_without_edges_tag (header : string) (rest : list string)
    (g : graph_t) :
  Forall (fun l => has_tag "EDGES" l = false) rest ->
  let r := load_map_data scan_node scan_edge (Some (header :: rest)) g in
  edges r.2 = edges g /\
  (r.1 = 0 ->
   nodes r.2 = nodes g ++ map node_of_fields (omap scan_node rest)).
Proof.
  intros Htags r.
  destruct (node_section_no_tag rest Htags) as [Hns Hes].
  destruct r as [rc g'] eqn:Hr. unfold r in Hr. simpl. split.
  - pose proof (read_nodes_edges scan_node rest g) as He.
    unfold load_map_data in Hr.
    destruct (has_tag "NODES" header); simpl in Hr;
      [|injection Hr as <- <-; reflexivity].
    destruct (read_nodes scan_node rest g) as [[rc1 g1] rest1] eqn:Hnodes.
    simpl in He.
    destruct (Z.eqb_spec rc1 0) as [->|Hne]; simpl in Hr.
    + apply read_nodes_content in Hnodes as (_ & _ & ->).
      rewrite Hes in Hr. simpl in Hr. injection Hr as <- <-. exact He.
    + injection Hr as <- <-. exact He.
  - intros ->. apply load_map_data_content in Hr as (_ & Hn & _).
    rewrite Hn, Hns. reflexivity.
Qed.

End LoadContent.

Lemma successful_load_stores_file_witness :
  node_ids (load_map_data Scan.node Scan.edge (Some small_map_file)
              path_planning_init).2 = [1; 2] /\
  edge_ids (load_map_data Scan.node Scan.edge (Some small_map_file)
              path_planning_init).2 = [1; 2].
Proof.
  destruct (successful_load_stores_file Scan.node Scan.edge
              (Some small_map_file) path_planning_init
              (load_map_data Scan.node Scan.edge (Some small_map_file)
                 path_planning_init).2
              ltac:(vm_compute; reflexivity))
    as (header & rest & [= <- <-] & _ & Hn & He).
  unfold node_ids, edge_ids. rewrite Hn, He. vm_compute. auto.
Defined.

Lemma load_without_edges_tag_witness :
  let r := load_map_data Scan.node Scan.edge
             (Some ["NODES"; "1 101 0 0"; "7 1 2 10.0"]%string)
             path_planning_init in
  r.1 = 0 /\ edges r.2 = [] /\ node_ids r.2 = [1; 7].
Proof.
  pose proof (load_without_edges_tag Scan.node Scan.edge "NODES"%string
                ["1 101 0 0"; "7 1 2 10.0"]%string path_planning_init
                ltac:(repeat constructor)) as [He Hn].
  cbv zeta in He, Hn |- *. split; [vm_compute; reflexivity|].
  split; [exact He|].
  unfold node_ids. rewrite Hn by (vm_compute; reflexivity).
  vm_compute. reflexivity.
Defined.

(** ** The planner: shape of the returned path *)

Section RankFacts.

Variable sqrtf : Qc -> Qc.
Variable g : graph_t.
Variables u_idx v_idx : nat.

Lemma relax_prev_closed (cur : nat) (st : astar_state) (e : graph_edge_t)
    (i : nat) :
  flag_at (closed_set st) i = true ->
  prev_at (prev_node_idx (relax sqrtf g v_idx cur st e)) i
  = prev_at (prev_node_idx st) i.
Proof.
  intros Hi. unfold relax.
  destruct (_ =? _); [|reflexivity].
  destruct (find_node_index_by_id g (end_node e)) as [nb|]; [|reflexivity].
  destruct (flag_at (closed_set st) nb) eqn:Hnb; [reflexivity|]. simpl negb.
  destruct (_ || _); [|reflexivity].
  simpl. rewrite prev_at_insert.
  destruct (decide _) as [[-> _]|_]; [congruence | reflexivity].
Qed.

Lemma explore_prev_closed (cur : nat) (st : astar_state) (i : nat) :
  flag_at (closed_set st) i = true ->
  prev_at (prev_node_idx (explore sqrtf g v_idx cur st)) i
  = prev_at (prev_node_idx st) i.
Proof.
  intros Hi. unfold explore.
  apply (fold_left_invariant (relax sqrtf g v_idx cur)
           (fun st' => closed_set st' = closed_set st /\
                       prev_at (prev_node_idx st') i
                       = prev_at (prev_node_idx st) i)); [auto|].
  intros st' e _ [Hc Hp]. split.
  - rewrite relax_closed_set. exact Hc.
  - rewrite relax_prev_closed by (rewrite Hc; exact Hi). exact Hp.
Qed.

Lemma flag_at_true_lt (l : list bool) (i : nat) :
  flag_at l i = true -> (i < length l)%nat.
Proof.
  unfold flag_at. destruct (l !! i) eqn:H; [|discriminate].
  intros _. eapply lookup_lt_Some. exact H.
Qed.

Lemma step_ranked (c : nat) (st : astar_state) (rank : nat -> nat) (k : nat) :
  sets_inv g st -> tree_inv g u_idx st -> ranked g st rank k ->
  lowest_f g st = Some c ->
  ranked g (explore sqrtf g v_idx c (close_node c st))
         (fun i => if decide (i = c) then k else rank i) (S k).
Proof.
  intros [Hol Hcl Hdis] Htree [Hk Hrank] Hsel.
  apply lowest_f_Some in Hsel as [Hopen Hc].
  pose proof (Hdis c Hopen) as Hnot.
  assert (Hparent_closed : forall i p,
            prev_at (prev_node_idx st) i = Some p ->
            flag_at (closed_set st) p = true).
  { intros i p Hp. eapply rooted_closed. apply (tree_parent _ _ _ Htree i p Hp). }
  split.
  - unfold unclosed. rewrite explore_closed_set.
    fold (unclosed (close_node c st)).
    pose proof (unclosed_close_node c st ltac:(lia) Hnot). lia.
  - intros i Hi. rewrite explore_closed_set in Hi.
    rewrite explore_prev_closed by exact Hi.
    simpl in Hi |- *. rewrite flag_at_insert in Hi.
    destruct (decide (i = c)) as [->|Hne].
    + split; [lia|]. intros p Hp.
      pose proof (Hparent_closed c p Hp) as Hpc.
      rewrite decide_False by congruence.
      apply (Hrank p Hpc).
    + rewrite decide_False in Hi by tauto.
      destruct (Hrank i Hi) as [Hlt Hpar]. split; [lia|].
      intros p Hp. pose proof (Hparent_closed i p Hp) as Hpc.
      rewrite decide_False by congruence. apply (Hpar p Hp).
Qed.

Lemma filter_false_replicate (n : nat) :
  length (filter (fun b : bool => b = false) (replicate n false)) = n.
Proof.
  induction n as [|n IH]; [reflexivity|].
  change (replicate (S n) false) with (false :: replicate n false).
  rewrite (list.filter_cons_True _ false) by reflexivity.
  simpl length. rewrite IH. reflexivity.
Qed.

Lemma init_state_ranked :
  ranked g (init_state sqrtf g u_idx v_idx) (fun _ => O) 0.
Proof.
  split.
  - unfold unclosed, init_state. cbn [closed_set].
    rewrite filter_false_replicate. reflexivity.
  - intros i. simpl. rewrite flag_at_replicate. discriminate.
Qed.

(** The state in which the goal is selected. *)
Lemma found_state (fuel : nat) (st : astar_state) :
  astar_loop sqrtf g v_idx fuel (init_state sqrtf g u_idx v_idx) = Found st ->
  sets_inv g st /\ tree_inv g u_idx st /\
  (exists rank k, ranked g st rank k) /\
  flag_at (open_set st) v_idx = true /\ (v_idx < length (nodes g))%nat.
Proof.
  intros Hrun.
  apply (astar_loop_found sqrtf g v_idx
           (fun st => sets_inv g st /\ tree_inv g u_idx st /\
                      exists rank k, ranked g st rank k)) in Hrun
    as [(Hsets & Htree & Hrank) Hsel].
  - apply lowest_f_Some in Hsel as [Hopen Hv]. auto 6.
  - intros st0 c (Hsets & Htree & rank & k & Hrank) Hsel _.
    destruct (step_tree sqrtf g u_idx v_idx c st0 (conj Hsets Htree) Hsel)
      as [Hsets' Htree'].
    split; [exact Hsets'|]. split; [exact Htree'|].
    eexists _, _. apply (step_ranked c st0 rank k); assumption.
  - split; [apply init_state_sets|]. split; [apply init_state_tree|].
    eexists _, _. apply init_state_ranked.
Qed.

End RankFacts.

Lemma trace_back_ranked (prev : list (option nat)) (closed : list bool)
    (rank : nat -> nat) :
  (forall i c, flag_at closed i = true -> prev_at prev i = Some c ->
     flag_at closed c = true /\ (rank c < rank i)%nat) ->
  forall (r i room : nat),
    flag_at closed i = true -> (rank i <= r)%nat -> (r < room)%nat ->
    exists l,
      trace_back prev (Some i) room = Some l /\
      (length l <= S r)%nat /\
      Forall (fun j => flag_at closed j = true /\ (rank j <= rank i)%nat) l /\
      NoDup l.
Proof.
  intros Hpar. induction r as [|r IH]; intros i room Hi Hr Hroom.
  - destruct room as [|room]; [lia|]. simpl.
    destruct (prev_at prev i) as [c|] eqn:Hp.
    + destruct (Hpar i c Hi Hp). lia.
    + rewrite trace_back_None. exists [i]. simpl.
      split; [reflexivity|]. split; [lia|].
      split; [constructor; [auto|constructor] | apply list.NoDup_singleton].
  - destruct room as [|room]; [lia|]. simpl.
    destruct (prev_at prev i) as [c|] eqn:Hp.
    + destruct (Hpar i c Hi Hp) as [Hc Hlt].
      destruct (IH c room Hc ltac:(lia) ltac:(lia)) as (l & Hl & Hlen & Hall & Hnd).
      rewrite Hl. exists (i :: l). simpl.
      split; [reflexivity|]. split; [lia|]. split.
      * constructor; [auto|].
        eapply Forall_impl; [|exact Hall]. simpl. intros j [Hj Hrj].
        split; [exact Hj | lia].
      * constructor; [|exact Hnd]. intros Hin.
        apply list_elem_of_In in Hin.
        rewrite Forall_forall in Hall. destruct (Hall i Hin). lia.
    + rewrite trace_back_None. exists [i]. simpl.
      split; [reflexivity|]. split; [lia|].
      split; [constructor; [auto|constructor] | apply list.NoDup_singleton].
Qed.

Lemma unclosed_pos (st : astar_state) (i : nat) :
  (i < length (closed_set st))%nat ->
  flag_at (closed_set st) i = false ->
  (0 < unclosed st)%nat.
Proof.
  unfold unclosed, flag_at. intros Hi Hflag.
  destruct (closed_set st !! i) as [b|] eqn:Hlook.
  - simpl in Hflag. subst b.
    rewrite <- (take_drop_middle (closed_set st) i false Hlook).
    rewrite list.filter_app, length_app.
    rewrite (list.filter_cons_True _ false) by reflexivity.
    simpl. lia.
  - apply lookup_ge_None in Hlook. lia.
Qed.

(** From the state in which the goal is selected the reconstruction
    succeeds whenever it has room for one entry per node, and its result
    lists distinct node indices, at most one per node of the graph. *)
Lemma found_trace (sqrtf : Qc -> Qc) (g : graph_t) (u_idx v_idx fuel : nat)
    (st : astar_state) (room : nat) :
  astar_loop sqrtf g v_idx fuel (init_state sqrtf g u_idx v_idx) = Found st ->
  (length (nodes g) <= room)%nat ->
  exists temp,
    trace_back (prev_node_idx st) (Some v_idx) room = Some temp /\
    (1 <= length temp <= length (nodes g))%nat /\
    Forall (fun j => (j < length (nodes g))%nat) temp /\
    NoDup temp.
Proof.
  intros Hrun Hroom.
  destruct (found_state sqrtf g u_idx v_idx fuel st Hrun)
    as ([Hol Hcl Hdis] & Htree & (rank & k & Hk & Hrank) & Hopen & Hv).
  pose proof (Hdis v_idx Hopen) as Hvc.
  pose proof (unclosed_pos st v_idx ltac:(lia) Hvc) as Hpos.
  assert (Hpar : forall i c, flag_at (closed_set st) i = true ->
            prev_at (prev_node_idx st) i = Some c ->
            flag_at (closed_set st) c = true /\ (rank c < rank i)%nat).
  { intros i c Hi Hp. split.
    - eapply rooted_closed. apply (tree_parent _ _ _ Htree i c Hp).
    - apply (Hrank i Hi). exact Hp. }
  destruct room as [|room]; [lia|]. simpl.
  destruct (prev_at (prev_node_idx st) v_idx) as [c|] eqn:Hp.
  - assert (Hc : flag_at (closed_set st) c = true).
    { eapply rooted_closed. apply (tree_parent _ _ _ Htree v_idx c Hp). }
    destruct (Hrank c Hc) as [Hck _].
    destruct (trace_back_ranked _ _ rank Hpar (rank c) c room Hc
                ltac:(lia) ltac:(lia)) as (l & Hl & Hlen & Hall & Hnd).
    rewrite Hl. exists (v_idx :: l). simpl.
    split; [reflexivity|]. split; [lia|]. split.
    + constructor; [exact Hv|].
      eapply Forall_impl; [|exact Hall]. simpl. intros j [Hj _].
      apply flag_at_true_lt in Hj. lia.
    + constructor; [|exact Hnd]. intros Hin. apply list_elem_of_In in Hin.
      rewrite Forall_forall in Hall. destruct (Hall v_idx Hin). congruence.
  - rewrite trace_back_None. exists [v_idx]. simpl.
    split; [reflexivity|]. split; [lia|].
    split; [constructor; [exact Hv | constructor] | apply list.NoDup_singleton].
Qed.

Lemma trace_back_mono (prev : list (option nat)) (room room' : nat) :
  forall cur l,
    trace_back prev cur room = Some l -> (room <= room')%nat ->
    trace_back prev cur room' = Some l.
Proof.
  revert room'. induction room as [|room IH]; intros room' cur l Htb Hle.
  - destruct cur; simpl in Htb; [discriminate Htb|].
    injection Htb as <-. apply trace_back_None.
  - destruct cur as [c|]; simpl in Htb.
    + destruct room' as [|room']; [lia|]. simpl.
      apply fmap_Some in Htb as (l' & Hl' & ->).
      rewrite (IH room' _ _ Hl') by lia. reflexivity.
    + injection Htb as <-. apply trace_back_None.
Qed.

Lemma node_at_lookup (g : graph_t) (i : nat) :
  (i < length (nodes g))%nat -> nodes g !! i = Some (node_at g i).
Proof.
  intros Hi. unfold node_at.
  destruct (lookup_lt_is_Some_2 (nodes g) i Hi) as [n Hn].
  rewrite Hn. reflexivity.
Qed.

(** With pairwise distinct node ids, distinct indices carry distinct
    ids. *)
Lemma node_id_at_inj (g : graph_t) (i j : nat) :
  NoDup (node_ids g) ->
  (i < length (nodes g))%nat -> (j < length (nodes g))%nat ->
  node_id (node_at g i) = node_id (node_at g j) -> i = j.
Proof.
  intros Hnd Hi Hj Heq.
  apply (NoDup_lookup (node_ids g) i j (node_id (node_at g i)) Hnd).
  - unfold node_ids. change (map node_id (nodes g)) with (node_id <$> nodes g).
    rewrite list_lookup_fmap, (node_at_lookup g i Hi). reflexivity.
  - unfold node_ids. change (map node_id (nodes g)) with (node_id <$> nodes g).
    rewrite list_lookup_fmap, (node_at_lookup g j Hj). simpl. congruence.
Qed.

(** X9: a path returned by [find_safe_path] is made of copies of nodes of
    the graph at pairwise distinct indices, so it has at least one and at
    most [num_nodes] nodes; when the node ids of the graph are pairwise
    distinct, no node id occurs twice on the path. *)
Theorem found_path_is_simple (sqrtf : Qc -> Qc) (now : Z) (g : graph_t)
    (start_area_id end_area_id : Z) (p : path_t) :
  find_safe_path sqrtf now g start_area_id end_area_id = Some p ->
  (exists idxs,
     path_nodes p = map (fun i => to_map_node (node_at g i)) idxs /\
     NoDup idxs /\
     Forall (fun i => (i < length (nodes g))%nat) idxs) /\
  1 <= path_num_nodes p <= num_nodes g /\
  (NoDup (node_ids g) -> NoDup (path_node_ids p)).
Proof.
  intros H.
  apply find_safe_path_Some in H
    as (sid & eid & u & v & st & temp & _ & _ & _ & _ & _ & Hrun & Htb & ->).
  set (room := Nat.max (Z.to_nat MAX_PATH_LENGTH) (length (nodes g))).
  destruct (found_trace sqrtf g u v _ st room Hrun ltac:(unfold room; lia))
    as (temp' & Htb' & Hlen & Hlt & Hnd).
  rewrite (trace_back_mono _ _ room _ _ Htb ltac:(unfold room; lia)) in Htb'.
  injection Htb' as <-.
  assert (Hnd' : NoDup (rev temp)).
  { rewrite rev_reverse, reverse_Permutation. exact Hnd. }
  assert (Hlt' : Forall (fun i => (i < length (nodes g))%nat) (rev temp)).
  { apply Forall_forall. intros i Hi. apply in_rev in Hi.
    rewrite Forall_forall in Hlt. apply Hlt. exact Hi. }
  split; [|split].
  - exists (rev temp). auto.
  - unfold path_num_nodes, num_nodes, build_path. simpl.
    rewrite length_map, length_rev. lia.
  - intros Hids. rewrite path_node_ids_build.
    change (map (fun j => node_id (node_at g j)) (rev temp))
      with ((fun j => node_id (node_at g j)) <$> rev temp).
    apply NoDup_fmap_2_strong; [|exact Hnd'].
    intros i j Hi Hj Heq. rewrite Forall_forall in Hlt'.
    apply list_elem_of_In in Hi, Hj.
    apply (node_id_at_inj g i j Hids (Hlt' i Hi) (Hlt' j Hj) Heq).
Qed.

Lemma found_path_is_simple_witness :
  exists p,
    find_safe_path sqrt_down 0 square_map 103 101 = Some p /\
    1 <= path_num_nodes p <= num_nodes square_map.
Proof.
  eexists. split.
  - vm_compute. reflexivity.
  - apply (found_path_is_simple sqrt_down 0 square_map 103 101).
    vm_compute. reflexivity.
Defined.

(** ** The planner: failures *)

Lemma last_node_with_area_In (g : graph_t) (area : Z) (n : graph_node_t) :
  last_node_with_area g area = Some n -> In n (nodes g) /\ area_id n = area.
Proof.
  unfold last_node_with_area. intros H. apply last_Some_elem_of in H.
  apply list_elem_of_filter in H as [Ha Hin].
  split; [apply list_elem_of_In; exact Hin | exact Ha].
Qed.





(** ** The planner: the ends of the path *)

(** X10: on a graph whose node ids are pairwise distinct, the first node
    of every returned path lies in the start area and its last node in
    the end area. *)
Theorem path_ends_lie_in_requested_areas (sqrtf : Qc -> Qc) (now : Z)
    (g : graph_t) (start_area_id end_area_id : Z) (p : path_t) :
  NoDup (node_ids g) ->
  find_safe_path sqrtf now g start_area_id end_area_id = Some p ->
  MapNode.area_id <$> head (path_nodes p) = Some start_area_id /\
  MapNode.area_id <$> list.last (path_nodes p) = Some end_area_id.
Proof.
  intros Hnd H.
  apply find_safe_path_Some in H
    as (sid & eid & u & v & st & temp & Hres & Hs & He & Hu & Hv & Hrun & Htb & ->).
  rewrite resolve_area_ids_last in Hres. injection Hres as Hsid Heid.
  destruct (last_node_with_area g start_area_id) as [ns|] eqn:Hns;
    [|simpl in Hsid; congruence].
  destruct (last_node_with_area g end_area_id) as [ne|] eqn:Hne;
    [|simpl in Heid; congruence].
  simpl in Hsid, Heid. subst sid eid.
  assert (Hat : forall n i, In n (nodes g) ->
            find_node_index_by_id g (node_id n) = Some i -> node_at g i = n).
  { intros n i Hin Hfind.
    apply find_node_index_by_id_Some in Hfind as [Hi Hid].
    apply list_elem_of_In, list_elem_of_lookup_1 in Hin as [j Hj].
    assert (Hjlt : (j < length (nodes g))%nat) by (eapply lookup_lt_Some; exact Hj).
    assert (Hjn : node_at g j = n) by (unfold node_at; rewrite Hj; reflexivity).
    rewrite <- Hjn in Hid.
    rewrite (node_id_at_inj g i j Hnd Hi Hjlt Hid). exact Hjn. }
  destruct (last_node_with_area_In g _ ns Hns) as [Hins Hareas].
  destruct (last_node_with_area_In g _ ne Hne) as [Hine Hareae].
  destruct (found_route_ends sqrtf g u v _ _ st temp Hrun Htb) as [Hhead Hlast].
  unfold build_path. simpl. split.
  - rewrite (head_map_Some _ _ _ Hhead). simpl.
    rewrite (Hat ns u Hins Hu). congruence.
  - rewrite (last_map_Some _ _ _ Hlast). simpl.
    rewrite (Hat ne v Hine Hv). congruence.
Qed.

Lemma path_ends_lie_in_requested_areas_witness :
  exists p,
    find_safe_path sqrt_down 0 twin_map 101 102 = Some p /\
    MapNode.area_id <$> head (path_nodes p) = Some 101.
Proof.
  eexists. split.
  - vm_compute. reflexivity.
  - apply (path_ends_lie_in_requested_areas sqrt_down 0 twin_map 101 102).
    + vm_compute. repeat constructor; rewrite ?list_elem_of_In; simpl; lia.
    + vm_compute. reflexivity.
Defined.





Lemma explore_no_outgoing (sqrtf : Qc -> Qc) (g : graph_t) (v_idx cur : nat)
    (st : astar_state) :
  Forall (fun e => start_node e <> node_id (node_at g cur)) (edges g) ->
  explore sqrtf g v_idx cur st = st.
Proof.
  unfold explore. generalize (edges g). intros es Hes. revert st.
  induction Hes as [|e es He _ IH]; intros st; simpl; [reflexivity|].
  unfold relax at 2.
  destruct (Z.eqb_spec (start_node e) (node_id (node_at g cur))) as [Heq|_];
    [contradiction | apply IH].
Qed.

(** X12: when no edge starts at the node the start area resolves to, and
    the end area resolves to a different node id, [find_safe_path] fails:
    edges are followed from their start node to their end node only. *)
Theorem no_outgoing_edge_no_path (sqrtf : Qc -> Qc) (now : Z) (g : graph_t)
    (start_area_id end_area_id : Z) :
  Forall (fun e => start_node e <> resolved_node_id g start_area_id)
         (edges g) ->
  resolved_node_id g end_area_id <> resolved_node_id g start_area_id ->
  find_safe_path sqrtf now g start_area_id end_area_id = None.
Proof.
  intros Hout Hdiff. unfold find_safe_path. rewrite resolve_area_ids_last.
  fold (resolved_node_id g start_area_id) (resolved_node_id g end_area_id).
  set (sid := resolved_node_id g start_area_id) in *.
  set (eid := resolved_node_id g end_area_id) in *.
  destruct ((sid =? -1) || (eid =? -1)); [reflexivity|].
  destruct (find_node_index_by_id g sid) as [u|] eqn:Hu; [|reflexivity].
  destruct (find_node_index_by_id g eid) as [v|] eqn:Hv; [|reflexivity].
  apply find_node_index_by_id_Some in Hu as [Hult Huid], Hv as [_ Hvid].
  assert (Huv : u <> v) by congruence.
  rewrite astar_loop_S.
  destruct (lowest_f g (init_state sqrtf g u v)) as [c|] eqn:Hsel;
    [|reflexivity].
  apply lowest_f_Some in Hsel as [Hopen _]. simpl in Hopen.
  rewrite flag_at_insert in Hopen.
  destruct (decide _) as [[-> _]|_];
    [|rewrite flag_at_replicate in Hopen; discriminate Hopen].
  destruct (Nat.eqb_spec u v) as [|_]; [contradiction|].
  rewrite explore_no_outgoing by (rewrite Huid; exact Hout).
  destruct (length (nodes g)) as [|n] eqn:Hlen; [lia|].
  rewrite astar_loop_S.
  assert (Hnone : lowest_f g (close_node u (init_state sqrtf g u v)) = None).
  { unfold lowest_f. rewrite lowest_f_step_closed; [reflexivity|].
    apply Forall_forall. intros i _. simpl.
    rewrite !flag_at_insert.
    destruct (decide _); [reflexivity|].
    destruct (decide _) as [[Hiu Hr]|_]; [|apply flag_at_replicate].
    exfalso. rewrite length_insert in *. tauto. }
  rewrite Hnone. reflexivity.
Qed.

Lemma no_outgoing_edge_no_path_witness :
  find_safe_path sqrt_down 0
    {| nodes := nodes square_map; edges := firstn 3 (edges square_map) |}
    104 101 = None.
Proof.
  apply no_outgoing_edge_no_path.
  - vm_compute. repeat constructor; discriminate.
  - vm_compute. discriminate.
Defined.

(** ** The direction translator and the guidance line *)

(** X13: swapping the first two nodes of a path turns the direction into
    its opposite (East and West, North and South), unless the two nodes
    have the same coordinates once these are converted to [float], in
    which case both answers are North.  Up to 2^24 in magnitude,
    coordinates are the same once converted exactly when they are the
    same. *)
Theorem reversed_segment_gives_opposite_direction (p q : path_t)
    (n0 n1 : MapNode_t) (rest rest' : list MapNode_t) :
  path_nodes p = n0 :: n1 :: rest ->
  path_nodes q = n1 :: n0 :: rest' ->
  let converted n :=
    (int_to_float (MapNode.x n), int_to_float (MapNode.y n)) in
  (converted n0 <> converted n1 ->
   get_direction_from_path (Some q)
   = opposite_direction (get_direction_from_path (Some p))) /\
  (converted n0 = converted n1 ->
   get_direction_from_path (Some p) = NORTH /\
   get_direction_from_path (Some q) = NORTH) /\
  (Z.abs (MapNode.x n0) <= 2 ^ 24 -> Z.abs (MapNode.y n0) <= 2 ^ 24 ->
   Z.abs (MapNode.x n1) <= 2 ^ 24 -> Z.abs (MapNode.y n1) <= 2 ^ 24 ->
   (converted n0 = converted n1 <->
    (MapNode.x n0, MapNode.y n0) = (MapNode.x n1, MapNode.y n1))).
Proof.
  intros Hp Hq converted.
  rewrite (get_direction_from_path_eq p n0 n1 rest Hp).
  rewrite (get_direction_from_path_eq q n1 n0 rest' Hq).
  set (X0 := binary32_of_Z (MapNode.x n0)).
  set (X1 := binary32_of_Z (MapNode.x n1)).
  set (Y0 := binary32_of_Z (MapNode.y n0)).
  set (Y1 := binary32_of_Z (MapNode.y n1)).
  assert (Hconv : converted n0 = converted n1 <-> X0 = X1 /\ Y0 = Y1).
  { unfold converted, int_to_float. fold X0 X1 Y0 Y1. split.
    - intros H. split; apply float_of_Z_inj;
        [exact (f_equal fst H) | exact (f_equal snd H)].
    - intros [-> ->]. reflexivity. }
  replace (X0 - X1) with (- (X1 - X0)) by lia.
  replace (Y0 - Y1) with (- (Y1 - Y0)) by lia.
  rewrite !binary32_of_Z_opp.
  pose proof (binary32_of_Z_0 (X1 - X0)) as Hx0.
  pose proof (binary32_of_Z_0 (Y1 - Y0)) as Hy0.
  set (dx := binary32_of_Z (X1 - X0)) in *.
  set (dy := binary32_of_Z (Y1 - Y0)) in *.
  rewrite !Z.abs_opp. unfold opposite_direction, EAST, WEST, NORTH, SOUTH.
  split; [|split].
  - intros Hne.
    assert (Hd : dx <> 0 \/ dy <> 0).
    { destruct (Z.eq_dec dx 0) as [Hx|Hx]; [|left; exact Hx].
      destruct (Z.eq_dec dy 0) as [Hy|Hy]; [|right; exact Hy].
      exfalso. apply Hne, Hconv. split; lia. }
    destruct (Z.ltb_spec (Z.abs dy) (Z.abs dx));
      destruct (Z.ltb_spec 0 dx); destruct (Z.ltb_spec 0 (- dx));
      destruct (Z.ltb_spec 0 dy); destruct (Z.ltb_spec 0 (- dy));
      try reflexivity; lia.
  - intros Heq. apply Hconv in Heq as [Hx Hy].
    assert (Hdx : dx = 0) by (apply Hx0; lia).
    assert (Hdy : dy = 0) by (apply Hy0; lia).
    rewrite Hdx, Hdy. simpl. auto.
  - intros Hbx0 Hby0 Hbx1 Hby1. rewrite Hconv. unfold X0, X1, Y0, Y1.
    rewrite !binary32_of_Z_exact by assumption.
    split; [intros [-> ->]; reflexivity | intros [= -> ->]; auto].
Qed.

Lemma reversed_segment_gives_opposite_direction_witness :
  let a := {| MapNode.node_id := 1; MapNode.x := 0; MapNode.y := 0;
              MapNode.area_id := 101 |} in
  let b := {| MapNode.node_id := 2; MapNode.x := 10; MapNode.y := 0;
              MapNode.area_id := 102 |} in
  get_direction_from_path
    (Some {| path_nodes := [b; a]; total_distance := flt 10;
             total_risk := 0%Qc; timestamp := 0 |})
  = opposite_direction
      (get_direction_from_path
         (Some {| path_nodes := [a; b]; total_distance := flt 10;
                  total_risk := 0%Qc; timestamp := 0 |})).
Proof.
  intros a b.
  apply (proj1 (reversed_segment_gives_opposite_direction
                  {| path_nodes := [a; b]; total_distance := flt 10;
                     total_risk := 0%Qc; timestamp := 0 |}
                  {| path_nodes := [b; a]; total_distance := flt 10;
                     total_risk := 0%Qc; timestamp := 0 |}
                  a b [] [] eq_refl eq_refl)).
  intros H. apply (f_equal fst) in H. cbn [fst] in H.
  unfold int_to_float in H. apply float_of_Z_inj in H.
  vm_compute in H. discriminate H.
Defined.

(** X20: [get_direction_from_path] returns -1 exactly when the path is
    missing or has fewer than two nodes, and one of the four codes East,
    North, West, South otherwise.  When the coordinates of the first two
    nodes do not exceed 2^23 in magnitude, with [(dx, dy)] the
    displacement from the first node to the second, the answer lies on the
    horizontal axis (East for [dx > 0], West for [dx < 0]) exactly when
    [|dx| > |dy|], and otherwise, ties included, on the vertical axis
    (South for [dy > 0], North for [dy <= 0]). *)
Theorem get_direction_from_path_within_float_precision :
  (forall path : option path_t,
     get_direction_from_path path = -1 <->
     (path = None \/ exists p, path = Some p /\ path_num_nodes p < 2)) /\
  (forall p : path_t,
     2 <= path_num_nodes p ->
     let d := get_direction_from_path (Some p) in
     d = EAST \/ d = NORTH \/ d = WEST \/ d = SOUTH) /\
  (forall (p : path_t) (n0 n1 : MapNode_t) (rest : list MapNode_t),
     path_nodes p = n0 :: n1 :: rest ->
     Z.abs (MapNode.x n0) <= 2 ^ 23 -> Z.abs (MapNode.y n0) <= 2 ^ 23 ->
     Z.abs (MapNode.x n1) <= 2 ^ 23 -> Z.abs (MapNode.y n1) <= 2 ^ 23 ->
     let dx := MapNode.x n1 - MapNode.x n0 in
     let dy := MapNode.y n1 - MapNode.y n0 in
     let d := get_direction_from_path (Some p) in
     ((d = EAST \/ d = WEST) <-> Z.abs dx > Z.abs dy) /\
     ((d = NORTH \/ d = SOUTH) <-> Z.abs dx <= Z.abs dy) /\
     (d = EAST <-> Z.abs dx > Z.abs dy /\ dx > 0) /\
     (d = WEST <-> Z.abs dx > Z.abs dy /\ dx < 0) /\
     (d = SOUTH <-> Z.abs dx <= Z.abs dy /\ dy > 0) /\
     (d = NORTH <-> Z.abs dx <= Z.abs dy /\ dy <= 0)).
Proof.
  split; [|split].
  - intros [p|].
    + destruct (path_nodes p) as [|n0 [|n1 rest]] eqn:Hp.
      * unfold get_direction_from_path, path_num_nodes. rewrite Hp. simpl.
        split; [intros _; right; exists p; split; [reflexivity|]|reflexivity].
        unfold path_num_nodes. rewrite Hp. simpl. lia.
      * unfold get_direction_from_path, path_num_nodes. rewrite Hp. simpl.
        split; [intros _; right; exists p; split; [reflexivity|]|reflexivity].
        unfold path_num_nodes. rewrite Hp. simpl. lia.
      * rewrite (get_direction_from_path_eq p n0 n1 rest Hp).
        assert (Hlen : ~ path_num_nodes p < 2).
        { unfold path_num_nodes. rewrite Hp. simpl length. lia. }
        unfold EAST, WEST, SOUTH, NORTH. split.
        -- intros H. exfalso. revert H.
           repeat match goal with
                  | |- context [if ?c then _ else _] => destruct c
                  end; discriminate.
        -- intros [H | (q & Hq & Hlt)]; [discriminate H|].
           injection Hq as <-. contradiction.
    + simpl. split; [intros _; left; reflexivity | reflexivity].
  - intros p Hlen d. unfold path_num_nodes in Hlen.
    destruct (path_nodes p) as [|n0 [|n1 rest]] eqn:Hp; simpl in Hlen; try lia.
    unfold d. rewrite (get_direction_from_path_eq p n0 n1 rest Hp).
    repeat match goal with
           | |- context [if ?c then _ else _] => destruct c
           end; auto.
  - intros p n0 n1 rest Hp Hx0 Hy0 Hx1 Hy1 dx dy d.
    assert (Hd : d = if Z.abs dy <? Z.abs dx
                     then (if 0 <? dx then EAST else WEST)
                     else (if 0 <? dy then SOUTH else NORTH))
      by (apply (get_direction_from_path_exact p n0 n1 rest Hp);
          assumption).
    clearbody d. subst d. unfold EAST, WEST, SOUTH, NORTH.
    destruct (Z.ltb_spec (Z.abs dy) (Z.abs dx));
      destruct (Z.ltb_spec 0 dx); destruct (Z.ltb_spec 0 dy);
      repeat split; try lia; intros; try lia; auto.
Qed.

Lemma get_direction_from_path_within_float_precision_witness :
  let p := {| path_nodes :=
                [ {| MapNode.node_id := 1; MapNode.x := 0; MapNode.y := 0;
                     MapNode.area_id := 101 |};
                  {| MapNode.node_id := 3; MapNode.x := 10; MapNode.y := 10;
                     MapNode.area_id := 103 |} ];
              total_distance := flt 14.14; total_risk := 0%Qc;
              timestamp := 0 |} in
  get_direction_from_path (Some p) = SOUTH.
Proof.
  intros p.
  apply (proj1 (proj2 (proj2 (proj2 (proj2
           (proj2 (proj2 get_direction_from_path_within_float_precision)
              p _ _ [] eq_refl
              ltac:(simpl; lia) ltac:(simpl; lia)
              ltac:(simpl; lia) ltac:(simpl; lia))))))).
  simpl. lia.
Defined.

Lemma arrow_of_direction_cases (p : path_t) :
  2 <= path_num_nodes p ->
  In (arrow_of_direction (get_direction_from_path (Some p)))
     [">"; "^"; "<"; "v"]%string.
Proof.
  intros Hlen. unfold path_num_nodes in Hlen.
  destruct (path_nodes p) as [|n0 [|n1 rest]] eqn:Hp; simpl in Hlen; try lia.
  rewrite (get_direction_from_path_eq p n0 n1 rest Hp).
  unfold EAST, WEST, SOUTH, NORTH.
  repeat match goal with
         | |- context [if ?c then _ else _] => destruct c
         end; simpl; auto.
Qed.

Lemma found_path_nonempty (sqrtf : Qc -> Qc) (now : Z) (g : graph_t)
    (start_area_id end_area_id : Z) (p : path_t) :
  find_safe_path sqrtf now g start_area_id end_area_id = Some p ->
  1 <= path_num_nodes p.
Proof.
  intros H.
  apply find_safe_path_Some in H
    as (sid & eid & u & v & st & temp & _ & _ & _ & _ & _ & _ & Htb & ->).
  destruct (trace_back_head _ _ _ _ Htb) as [l' ->].
  unfold path_num_nodes, build_path. cbn [path_nodes].
  rewrite length_map, length_rev. simpl length. lia.
Qed.

(** X14: [ui_update] always returns 0.  It writes "NO PATH" exactly when
    the path is missing or empty, "?" exactly when the path has one node,
    and one of the four arrows exactly when it has at least two.  For a
    path returned by [find_safe_path] it therefore never writes "NO PATH",
    and writes "?" exactly when the path consists of its start node
    alone. *)
Theorem ui_update_line (path : option path_t) :
  (ui_update path).1 = 0 /\
  ((ui_update path).2 = "NO PATH"%string <->
   path = None \/ exists p, path = Some p /\ path_num_nodes p <= 0) /\
  ((ui_update path).2 = "?"%string <->
   exists p, path = Some p /\ path_num_nodes p = 1) /\
  (In (ui_update path).2 [">"; "^"; "<"; "v"]%string <->
   exists p, path = Some p /\ 2 <= path_num_nodes p) /\
  (forall sqrtf now g s e p,
     path = Some p -> find_safe_path sqrtf now g s e = Some p ->
     (ui_update path).2 <> "NO PATH"%string /\
     ((ui_update path).2 = "?"%string <-> path_num_nodes p = 1)).
Proof.
  assert (Hmain :
    (ui_update path).1 = 0 /\
    ((ui_update path).2 = "NO PATH"%string <->
     path = None \/ exists p, path = Some p /\ path_num_nodes p <= 0) /\
    ((ui_update path).2 = "?"%string <->
     exists p, path = Some p /\ path_num_nodes p = 1) /\
    (In (ui_update path).2 [">"; "^"; "<"; "v"]%string <->
     exists p, path = Some p /\ 2 <= path_num_nodes p)).
  { destruct path as [p|]; [|simpl].
    - unfold ui_update. set (d := get_direction_from_path (Some p)).
      destruct (Z.ltb_spec 0 (path_num_nodes p)) as [Hpos|Hzero]; cbn [fst snd].
      + destruct (Z.le_gt_cases 2 (path_num_nodes p)) as [Htwo|Hone].
        * pose proof (arrow_of_direction_cases p Htwo) as Harrow.
          fold d in Harrow.
          split; [reflexivity|]. split; [|split].
          -- split.
             ++ intros H. rewrite H in Harrow. simpl in Harrow.
                decompose [or] Harrow; discriminate || contradiction.
             ++ intros [H | (q & [= <-] & Hq)]; [discriminate H | lia].
          -- split.
             ++ intros H. rewrite H in Harrow. simpl in Harrow.
                decompose [or] Harrow; discriminate || contradiction.
             ++ intros (q & [= <-] & Hq). lia.
          -- split; [intros _; exists p; auto | intros _; exact Harrow].
        * assert (Hdir : d = -1).
          { unfold d, get_direction_from_path.
            destruct (Z.ltb_spec (path_num_nodes p) 2); [reflexivity | lia]. }
          rewrite Hdir. simpl.
          split; [reflexivity|]. split; [|split].
          -- split; [discriminate|].
             intros [H | (q & [= <-] & Hq)]; [discriminate H | lia].
          -- split; [intros _; exists p; split; [reflexivity | lia] | reflexivity].
          -- split.
             ++ intros H. simpl in H. decompose [or] H; discriminate || contradiction.
             ++ intros (q & [= <-] & Hq). lia.
      + split; [reflexivity|]. split; [|split].
        * split; [intros _; right; exists p; auto | reflexivity].
        * split; [discriminate | intros (q & [= <-] & Hq); lia].
        * split.
          -- intros H. simpl in H. decompose [or] H; discriminate || contradiction.
          -- intros (q & [= <-] & Hq). lia.
    - split; [reflexivity|]. split; [|split].
      + split; [auto | reflexivity].
      + split; [discriminate | intros (q & H & _); discriminate H].
      + split.
        * intros H. simpl in H. decompose [or] H; discriminate || contradiction.
        * intros (q & H & _). discriminate H. }
  destruct Hmain as (H0 & Hno & Hq & Harrow).
  split; [exact H0|]. split; [exact Hno|]. split; [exact Hq|].
  split; [exact Harrow|].
  intros sqrtf now g s e p -> Hfound.
  pose proof (found_path_nonempty sqrtf now g s e p Hfound) as Hlen.
  split.
  - intros H. apply Hno in H as [H | (q & [= <-] & Hq')]; [discriminate H | lia].
  - rewrite Hq. split.
    + intros (q & [= <-] & Hq'). exact Hq'.
    + intros H1. exists p. auto.
Qed.

Lemma ui_update_line_witness :
  exists p,
    find_safe_path sqrt_down 0 square_map 101 103 = Some p /\
    (ui_update (Some p)).2 <> "NO PATH"%string.
Proof.
  eexists. split.
  - vm_compute. reflexivity.
  - apply (proj2 (proj2 (proj2 (proj2 (ui_update_line _))))
             sqrt_down 0 square_map 101 103 _ eq_refl).
    vm_compute. reflexivity.
Defined.

(** ** The mall map and its planner *)

Lemma joins_sym (a b : Z) (c : Mall.Connection) :
  Mall.joins a b c = Mall.joins b a c.
Proof. unfold Mall.joins. apply orb_comm. Qed.

Lemma find_joins_sym (a b : Z) (l : list Mall.Connection) :
  find (Mall.joins a b) l = find (Mall.joins b a) l.
Proof.
  induction l as [|c l IH]; simpl; [reflexivity|].
  rewrite (joins_sym a b c), IH. reflexivity.
Qed.

Lemma find_joins_link (a b : Z) (l l' : list Mall.Connection) :
  map connection_link l = map connection_link l' ->
  Mall.distance <$> find (Mall.joins a b) l
  = Mall.distance <$> find (Mall.joins a b) l'.
Proof.
  revert l'. induction l as [|c l IH]; intros [|c' l'] Hmap;
    try discriminate Hmap; [reflexivity|].
  simpl in Hmap. unfold connection_link at 1 3 in Hmap.
  injection Hmap as Hf Ht Hd Hl.
  simpl. unfold Mall.joins at 1 3. rewrite Hf, Ht.
  destruct (_ || _); simpl; [congruence | apply IH; exact Hl].
Qed.

Lemma find_evacuation_path_distance (m : Mall.ShoppingMallMap) (a b : Z) :
  Mall.total_distance (Mall.find_evacuation_path m a b) =
    match Mall.distance <$> find (Mall.joins a b) (Mall.connections m) with
    | Some d => (flt 0.0 + d)%Qc
    | None => flt 0.0
    end.
Proof.
  unfold Mall.find_evacuation_path. simpl.
  destruct (find _ _); reflexivity.
Qed.

(** X15: [find_evacuation_path] always answers with a path of length 2
    whose entries in use are the start and the end area, also when no
    connection joins them (the total distance is then 0) and when the
    joining connection is marked blocked: the total distance is the same
    in both directions and does not depend on any [blocked] flag. *)
Theorem find_evacuation_path_shape (m : Mall.ShoppingMallMap) (a b : Z) :
  Mall.length (Mall.find_evacuation_path m a b) = 2 /\
  Mall.active_ids (Mall.find_evacuation_path m a b) = [a; b] /\
  Mall.total_distance (Mall.find_evacuation_path m a b)
  = Mall.total_distance (Mall.find_evacuation_path m b a) /\
  (Forall (fun c => Mall.joins a b c = false) (Mall.connections m) ->
   Mall.total_distance (Mall.find_evacuation_path m a b) = 0%Qc) /\
  (forall m',
     map connection_link (Mall.connections m')
     = map connection_link (Mall.connections m) ->
     Mall.find_evacuation_path m' a b = Mall.find_evacuation_path m a b).
Proof.
  split; [reflexivity|]. split; [reflexivity|]. split; [|split].
  - rewrite !find_evacuation_path_distance.
    rewrite (find_joins_sym a b). reflexivity.
  - intros Hnone. rewrite find_evacuation_path_distance.
    assert (Hf : find (Mall.joins a b) (Mall.connections m) = None).
    { induction Hnone as [|c l Hc _ IH]; simpl; [reflexivity|].
      rewrite Hc. exact IH. }
    rewrite Hf. simpl. apply flt_0.
  - intros m' Hlink.
    pose proof (find_evacuation_path_distance m' a b) as Hd'.
    pose proof (find_evacuation_path_distance m a b) as Hd.
    rewrite (find_joins_link a b _ _ Hlink) in Hd'. rewrite <- Hd in Hd'.
    unfold Mall.find_evacuation_path in *. simpl in Hd, Hd' |- *.
    f_equal. exact Hd'.
Qed.

Lemma find_evacuation_path_shape_witness :
  Mall.total_distance (Mall.find_evacuation_path two_exit_mall 101 999) = 0%Qc.
Proof.
  apply (proj1 (proj2 (proj2 (proj2
           (find_evacuation_path_shape two_exit_mall 101 999))))).
  vm_compute. repeat constructor.
Defined.

(** X16: [update_path_dynamically] is idempotent: applied to its own
    result, for the same map and current area, it returns that result
    again. *)
Theorem update_path_dynamically_idempotent (m : Mall.ShoppingMallMap)
    (path : Mall.EvacuationPath) (current_area : Z) :
  Mall.update_path_dynamically m
    (Mall.update_path_dynamically m path current_area) current_area
  = Mall.update_path_dynamically m path current_area.
Proof.
  set (q := Mall.update_path_dynamically m path current_area).
  unfold Mall.update_path_dynamically at 1.
  destruct (existsb (Mall.hazardous m) (Mall.active_ids q)) eqn:Hq;
    [|reflexivity].
  subst q. unfold Mall.update_path_dynamically in *.
  destruct (existsb (Mall.hazardous m) (Mall.active_ids path)) eqn:Hp.
  - reflexivity.
  - rewrite Hp in Hq. discriminate Hq.
Qed.

Lemma read_records_take {A : Type} (capacity : nat) (scan : string -> option A)
    (lines : list string) (records : list A) :
  (length records <= capacity)%nat ->
  read_records (Z.of_nat capacity) scan lines records
  = take capacity (records ++ omap scan lines).
Proof.
  revert records. induction lines as [|line rest IH]; intros records Hlen; simpl.
  - rewrite app_nil_r, take_ge by exact Hlen. reflexivity.
  - destruct (Z.ltb_spec (Z.of_nat (length records)) (Z.of_nat capacity))
      as [Hlt|Hge].
    + destruct (scan line) as [r|]; [|apply IH; exact Hlen].
      rewrite IH by (rewrite length_app; simpl; lia).
      rewrite <- app_assoc. reflexivity.
    + rewrite take_app_length' by lia. reflexivity.
Qed.

(** X17: the two mall loaders return 0 and leave the map as it was when
    the file cannot be opened.  Otherwise they return 1 and replace their
    array, whatever it held, by the records of the lines that scan, in
    file order and cut off at the capacity (100 areas, 500 connections);
    the other array is untouched and duplicate ids are not rejected. *)
Theorem mall_loaders_store_scanned_lines
    (scan_area : string -> option Mall.Area)
    (scan_connection : string -> option Mall.Connection)
    (m : Mall.ShoppingMallMap) :
  load_areas_from_file scan_area m None = (0, m) /\
  load_connections_from_file scan_connection m None = (0, m) /\
  (forall lines,
     load_areas_from_file scan_area m (Some lines) =
       (1, {| Mall.areas := take 100 (omap scan_area lines);
              Mall.connections := Mall.connections m |})) /\
  (forall lines,
     load_connections_from_file scan_connection m (Some lines) =
       (1, {| Mall.areas := Mall.areas m;
              Mall.connections := take 500 (omap scan_connection lines) |})).
Proof.
  split; [reflexivity|]. split; [reflexivity|]. split.
  - intros lines. unfold load_areas_from_file. f_equal. f_equal.
    apply (read_records_take 100 scan_area lines []). simpl. lia.
  - intros lines. unfold load_connections_from_file. f_equal. f_equal.
    apply (read_records_take 500 scan_connection lines []). simpl. lia.
Qed.

(** ** The environmental fusion *)

Lemma Qceqb_refl (a : Qc) : Qceqb a a = true.
Proof. unfold Qceqb. apply Qeq_bool_iff. reflexivity. Qed.

(** X18: [fuse_environmental_data] returns 0 and passes the TVOC and eCO2
    values through unchanged.  A zero ADC code gives voltage 0 and, by the
    two zero guards, concentration 0 whatever [pow] is.  The edge risks
    computed from a fused reading do not depend on the ADC code or on
    [pow]: the MQ-2 channel never reaches the planner. *)
Theorem fused_reading_properties (powf : Qc -> Qc -> Qc)
    (tvoc eco2 adc : Z) :
  let r := fuse_environmental_data powf tvoc eco2 adc in
  r.1 = 0 /\ tvoc_ppb r.2 = tvoc /\ eco2_ppm r.2 = eco2 /\
  (adc = 0 -> mq2_voltage r.2 = 0%Qc /\ mq2_concentration r.2 = 0%Qc) /\
  (forall powf' adc' g,
     update_edge_risks (Some r.2) g
     = update_edge_risks
         (Some (fuse_environmental_data powf' tvoc eco2 adc').2) g).
Proof.
  simpl. split; [reflexivity|]. split; [reflexivity|]. split; [reflexivity|].
  split.
  - intros ->.
    assert (Hv : (int_to_float 0 * flt 2.048 / flt 32767.0)%Qc = 0%Qc)
      by (apply Qc_is_canon; reflexivity).
    split; [exact Hv|].
    unfold mq2_get_rs. cbv zeta. rewrite Hv, Qceqb_refl.
    unfold mq2_get_concentration. cbv zeta.
    replace (0 / MQ2_RO_CLEAN_AIR_FACTOR)%Qc with 0%Qc
      by (apply Qc_is_canon; reflexivity).
    rewrite Qceqb_refl. reflexivity.
  - intros powf' adc' g. unfold update_edge_risks.
    apply f_equal. apply f_equal.
    apply map_ext. intros e. apply f_equal.
    apply edge_risk_of_gas; reflexivity.
Qed.

Lemma fused_reading_properties_witness :
  mq2_concentration (fuse_environmental_data (fun _ _ => flt 7) 100 500 0).2
  = 0%Qc.
Proof.
  apply (proj2 (proj1 (proj2 (proj2 (proj2
           (fused_reading_properties (fun _ _ => flt 7) 100 500 0))))
           eq_refl)).
Defined.

(** ** The heuristic *)

